(** * concorde/util.py: TSPLIB writer, tour reader and the Jonker-Volgenant
      symmetricization, embedded in Rocq.

    The three functions of [util.py] are modelled the way they are written:

    - Python [str] values are [string]s whose characters stand for the code
      points U+0000..U+00FF; Python [int]s are [Z].
    - An exception is a value of [exn]; code that can raise lives in the
      [result] monad, code that also mutates an object lives in [M S], a
      state and exception monad in which the state survives a raise (as a
      mutated Python object does).
    - [write_tsp_file] runs on a text sink whose state is what has been
      written so far (an [io.StringIO], or a file opened for writing whose
      writes succeed).
    - [read_tsp_tour] reads from a file system given as a partial map from
      paths to file contents, iterating the file in text mode with universal
      newlines.
    - [symmetricize] runs on a store of numpy buffers.  An [ndarray] is a
      handle on a buffer, possibly a transposed view of it, so that copies,
      views and in-place updates are told apart.  Matrix elements are
      64-bit integers (dtype int64): a product of array elements wraps
      around, and a Python [int] that does not fit the dtype is refused with
      OverflowError when it meets an array. *)

From Stdlib Require Import ssreflect ZArith String Ascii List.
From Stdlib Require Import DecimalString DecimalZ Lia.
From stdpp Require Import base option list strings gmap.

#[local] Set Warnings "-rewrite-rw".
Local Open Scope Z_scope.

(** ** Exceptions and the two monads *)

(** The built-in exception classes the module can raise.  [ReferenceError]
    is what the store model answers for a handle that names no object. *)
Inductive exn : Set :=
  | ValueError
  | RuntimeError
  | OSError
  | OverflowError
  | ReferenceError.

Inductive result (A : Type) : Type :=
  | Ok (a : A)
  | Raise (e : exn).
Arguments Ok {A} a.
Arguments Raise {A} e.

#[global] Instance exn_eq_dec : EqDecision exn.
Proof. solve_decision. Defined.

#[global] Instance result_ret : MRet result := @Ok.
#[global] Instance result_bind : MBind result := fun A B f r =>
  match r with
  | Ok a => f a
  | Raise e => Raise e
  end.

(** Stateful code: the state is threaded through, and is kept on a raise. *)
Definition M (S A : Type) : Type := S -> result A * S.

#[global] Instance M_ret {S} : MRet (M S) := fun A a s => (Ok a, s).
#[global] Instance M_bind {S} : MBind (M S) := fun A B f m s =>
  match m s with
  | (Ok a, s') => f a s'
  | (Raise e, s') => (Raise e, s')
  end.

Definition raise {S A} (e : exn) : M S A := fun s => (Raise e, s).

(** [for x in l: body(x)] *)
Fixpoint for_each {S A} (l : list A) (body : A -> M S unit) : M S unit :=
  match l with
  | [] => mret tt
  | x :: l' => body x ;; for_each l' body
  end.

(** ** Characters, strings and integers as Python sees them *)

Definition LF : ascii := "010"%char.
Definition CR : ascii := "013"%char.
Definition nl : string := String LF "".

(** [str(n)] for an [int]. *)
Definition str_int (n : Z) : string := NilZero.string_of_int (Z.to_int n).

(** [c.isspace()] for a code point below 256: TAB, LF, VT, FF, CR, the four
    separators FS, GS, RS, US, the space, NEL and NBSP. *)
Definition isspace (c : ascii) : bool :=
  match c with
  | "009" | "010" | "011" | "012" | "013"
  | "028" | "029" | "030" | "031" | " " | "133" | "160" => true
  | _ => false
  end%char.

(** [s.split()]: the maximal runs of characters that are not whitespace. *)
Fixpoint split (s : string) : list string :=
  match s with
  | EmptyString => []
  | String c s' =>
      if isspace c then split s'
      else match s' with
           | EmptyString => [String c ""]
           | String d _ =>
               if isspace d then String c "" :: split s'
               else match split s' with
                    | tok :: toks => String c tok :: toks
                    | [] => [String c ""]
                    end
           end
  end.

(** The value of a decimal digit: the code points 48 to 57. *)
Definition digit_of (c : ascii) : option Z :=
  let code := Z.of_N (N_of_ascii c) in
  if (48 <=? code) && (code <=? 57) then Some (code - 48) else None.

(** The digits of an integer literal, most significant first; a single
    underscore is allowed between two digits.  [after_digit] tells whether
    the previous character was a digit. *)
Fixpoint int_digits (acc : Z) (after_digit : bool) (s : string) : option Z :=
  match s with
  | EmptyString => if after_digit then Some acc else None
  | String c s' =>
      match digit_of c with
      | Some d => int_digits (10 * acc + d) true s'
      | None =>
          if (Ascii.eqb c "_" && after_digit)%bool
          then int_digits acc false s'
          else None
      end
  end.

(** [int(tok)] in base 10 for a token without whitespace; [None] stands for
    the [ValueError] Python raises on an invalid literal. *)
Definition int (tok : string) : option Z :=
  match tok with
  | String "+" s => int_digits 0 false s
  | String "-" s => Z.opp <$> int_digits 0 false s
  | _ => int_digits 0 false tok
  end.

(** [s.startswith(p)] *)
Fixpoint startswith (s p : string) : bool :=
  match p, s with
  | EmptyString, _ => true
  | String a p', String b s' => Ascii.eqb a b && startswith s' p'
  | String _ _, EmptyString => false
  end.

(** Text-mode reading translates ["\r\n"] and a lone ["\r"] to ["\n"];
    [after_cr] tells whether the previous character was a ["\r"]. *)
Fixpoint universal_newlines (after_cr : bool) (s : string) : string :=
  match s with
  | EmptyString => EmptyString
  | String c s' =>
      if Ascii.eqb c CR then String LF (universal_newlines true s')
      else if (Ascii.eqb c LF && after_cr)%bool then universal_newlines false s'
      else String c (universal_newlines false s')
  end.

(** The lines of a text, each with its terminating ["\n"]; the last one has
    none when the text does not end in a newline. *)
Fixpoint lines_keepends (s : string) : list string :=
  match s with
  | EmptyString => []
  | String c s' =>
      if Ascii.eqb c LF then nl :: lines_keepends s'
      else match lines_keepends s' with
           | [] => [String c ""]
           | l :: ls => String c l :: ls
           end
  end.

(** [for line in fp] over a file opened in text mode with contents [s]. *)
Definition readlines (s : string) : list string :=
  lines_keepends (universal_newlines false s).

(** [int(node) for node in line.split()], raising at the first token that is
    not an integer literal. *)
Definition ints_of (line : string) : result (list Z) :=
  match mapM int (split line) with
  | Some ns => Ok ns
  | None => Raise ValueError
  end.

(** ** The TSPLIB writer *)

Definition EDGE_WEIGHT_TYPES : gset string :=
  {[ "EXPLICIT"; "EUC_2D"; "EUC_3D"; "MAX_2D"; "MAN_2D";
     "GEO"; "GEOM"; "ATT"; "CEIL_2D"; "DSJRAND" ]}.

(** The sink [fp]: its state is the text written so far. *)
Definition sink : Type := string.

Definition fp_write (s : string) : M sink unit :=
  fun written => (Ok tt, written +:+ s).

(** [enumerate(l, start)] *)
Fixpoint enumerate {A} (start : Z) (l : list A) : list (Z * A) :=
  match l with
  | [] => []
  | x :: l' => (start, x) :: enumerate (start + 1) l'
  end.

(** [zip(xs, ys)] *)
Definition zip {A B} (xs : list A) (ys : list B) : list (A * B) :=
  zip_with pair xs ys.

Section Writer.
(** The coordinates are numbers of some type [coord]; [format_coord x] is
    what ["{}".format(x)] prints for one of them. *)
Context {coord : Type} (format_coord : coord -> string).

Definition write_tsp_file (xs ys : list coord) (norm name : string)
  : M sink unit :=
  (if bool_decide (length xs ≠ length ys)
   then raise ValueError else mret tt) ;;
  (if bool_decide (norm ∉ EDGE_WEIGHT_TYPES)
   then raise ValueError else mret tt) ;;
  fp_write ("NAME: " +:+ name +:+ nl) ;;
  fp_write ("TYPE: TSP" +:+ nl) ;;
  fp_write ("DIMENSION: " +:+ str_int (Z.of_nat (length xs)) +:+ nl) ;;
  fp_write ("EDGE_WEIGHT_TYPE: " +:+ norm +:+ nl) ;;
  fp_write ("NODE_COORD_SECTION" +:+ nl) ;;
  for_each (enumerate 1 (zip xs ys)) (fun '(n, (x, y)) =>
    fp_write (str_int n +:+ " " +:+ format_coord x +:+ " "
              +:+ format_coord y +:+ nl)) ;;
  fp_write ("EOF" +:+ nl).

End Writer.

(** ** The tour reader *)

(** The file system: the text of the file at a path, if there is one. *)
Definition filesystem : Type := string -> option string.

(** The [for line in fp] loop of [read_tsp_tour], from the state
    [(has_tour, tour)] on: the value of [tour] when the loop is left. *)
Fixpoint scan_lines (lines : list string) (has_tour : bool) (tour : list Z)
  : result (list Z) :=
  match lines with
  | [] => Ok tour
  | line :: rest =>
      if startswith line "TOUR_SECTION" then scan_lines rest true tour
      else if startswith line "EOF" then Ok tour
      else if has_tour then
        nodes ← ints_of line; scan_lines rest has_tour (tour ++ nodes)
      else scan_lines rest has_tour tour
  end.

(** [tour[-1] == -1] then [tour.pop()] *)
Definition strip_sentinel (tour : list Z) : list Z :=
  if bool_decide (last tour = Some (-1)) then removelast tour else tour.

(** The list returned stands for [np.array(tour)], which holds exactly
    these values when they fit 64 bits. *)
Definition read_tsp_tour (fs : filesystem) (fname : string)
  : result (list Z) :=
  match fs fname with
  | None => Raise OSError
  | Some text =>
      tour ← scan_lines (readlines text) false [];
      if bool_decide (tour = []) then Raise RuntimeError
      else Ok (strip_sentinel tour)
  end.

(** The reader as the specification words it: two modes, before and inside
    the tour section, each line contributing its integers in order. *)
Fixpoint collected (collecting : bool) (lines : list string)
  : result (list Z) :=
  match lines with
  | [] => Ok []
  | line :: rest =>
      if startswith line "TOUR_SECTION" then collected true rest
      else if startswith line "EOF" then Ok []
      else if collecting then
        nodes ← ints_of line; more ← collected true rest; Ok (nodes ++ more)
      else collected false rest
  end.

(** A line of the file that is neither a section header nor the end marker. *)
Definition plain_line (line : string) : bool :=
  negb (startswith line "TOUR_SECTION") && negb (startswith line "EOF").

(** ** numpy: matrices, buffers and views *)

(** The values of a signed 64-bit integer, and the value an int64
    operation keeps of an exact result. *)
Definition int64 (x : Z) : bool := (- 2 ^ 63 <=? x) && (x <? 2 ^ 63).

Definition wrap64 (x : Z) : Z := (x + 2 ^ 63) mod 2 ^ 64 - 2 ^ 63.

(** A two-dimensional array value: its shape and its rows. *)
Record mat : Type := Mat { shape : nat * nat; rows : list (list Z) }.

Definition mat_wf (m : mat) : Prop :=
  length (rows m) = (shape m).1 ∧
  Forall (fun r => length r = (shape m).2) (rows m).

(** [m[i][j]], if the index is in range. *)
Definition entry (m : mat) (i j : nat) : option Z :=
  rows m !! i ≫= fun r => r !! j.

Definition get (m : mat) (i j : nat) : Z := default 0 (entry m i j).

(** The [r] by [c] matrix whose element [(i, j)] is [f i j]. *)
Definition mk_mat (r c : nat) (f : nat -> nat -> Z) : mat :=
  Mat (r, c) ((fun i => f i <$> seq 0 c) <$> seq 0 r).

Definition transpose_mat (m : mat) : mat :=
  mk_mat (shape m).2 (shape m).1 (fun i j => get m j i).

(** What [np.fill_diagonal(a, v)] leaves in a two-dimensional [a]: it
    assigns [a.flat[:end:step]] with [step = ncols + 1] and
    [end = ncols * ncols], that is the elements [(i, i)] that exist. *)
Definition fill_diagonal_mat (v : Z) (m : mat) : mat :=
  Mat (shape m) (imap (fun i r => <[i := v]> r) (rows m)).

Definition scale_mat (k : Z) (m : mat) : mat :=
  Mat (shape m)
      ((fun r : list Z => (fun x => wrap64 (x * k)) <$> r) <$> rows m).

(** [np.concatenate((a, b), axis)] on values: [None] when the shapes do not
    agree off the axis, or there is no such axis. *)
Definition concat_mat (axis : nat) (a b : mat) : option mat :=
  match axis with
  | 0%nat =>
      if bool_decide ((shape a).2 = (shape b).2)
      then Some (Mat (((shape a).1 + (shape b).1)%nat, (shape a).2)
                     (rows a ++ rows b))
      else None
  | 1%nat =>
      if bool_decide ((shape a).1 = (shape b).1)
      then Some (Mat ((shape a).1, ((shape a).2 + (shape b).2)%nat)
                     (zip_with app (rows a) (rows b)))
      else None
  | _ => None
  end.

(** [m.max()]: [None] for an array of size zero. *)
Definition mat_max (m : mat) : option Z :=
  match concat (rows m) with
  | [] => None
  | x :: xs => Some (foldl Z.max x xs)
  end.

(** The store: the buffers allocated so far, addressed by position. *)
Definition loc : Type := nat.
Definition heap : Type := list mat.

(** An array object: the buffer it reads and writes, seen as it is or
    transposed. *)
Record ndarray : Type := NdArray { base : loc; transposed : bool }.

Definition view (h : heap) (a : ndarray) : option mat :=
  m ← h !! base a; Some (if transposed a then transpose_mat m else m).

Definition alloc (m : mat) : M heap ndarray :=
  fun h => (Ok (NdArray (length h) false), h ++ [m]).

Definition read (a : ndarray) : M heap mat :=
  fun h => match view h a with
           | Some m => (Ok m, h)
           | None => (Raise ReferenceError, h)
           end.

(** [a.copy()] *)
Definition ndarray_copy (a : ndarray) : M heap ndarray :=
  m ← read a; alloc m.

(** [a.max()] *)
Definition ndarray_max (a : ndarray) : M heap Z :=
  m ← read a;
  match mat_max m with
  | Some x => mret x
  | None => raise ValueError
  end.

(** [a.shape] *)
Definition ndarray_shape (a : ndarray) : M heap (nat * nat) :=
  m ← read a; mret (shape m).

(** [np.fill_diagonal(a, v)]: in place, through the view.  The diagonal of
    a transposed view is the diagonal of its buffer. *)
Definition np_fill_diagonal (a : ndarray) (v : Z) : M heap unit :=
  fun h => match h !! base a with
           | Some m => (Ok tt, <[base a := fill_diagonal_mat v m]> h)
           | None => (Raise ReferenceError, h)
           end.

(** [np.ones(shape)] *)
Definition np_ones (s : nat * nat) : M heap ndarray :=
  alloc (mk_mat s.1 s.2 (fun _ _ => 1)).

(** [a.astype(int)], a new array. *)
Definition ndarray_astype_int (a : ndarray) : M heap ndarray :=
  ndarray_copy a.

(** [a * k] for an int64 array and a Python [int]: the scalar takes the
    dtype of the array, which raises OverflowError when it does not fit;
    the products are int64 products, in a new array. *)
Definition ndarray_mul (a : ndarray) (k : Z) : M heap ndarray :=
  if int64 k then m ← read a; alloc (scale_mat k m)
  else raise OverflowError.

(** [np.matrix(a)], which copies its argument. *)
Definition np_matrix (a : ndarray) : M heap ndarray :=
  ndarray_copy a.

(** [np.transpose(a)]: a view on the buffer of [a], nothing is allocated. *)
Definition np_transpose (a : ndarray) : ndarray :=
  NdArray (base a) (negb (transposed a)).

(** [np.concatenate((a, b), axis)] *)
Definition np_concatenate (a b : ndarray) (axis : nat) : M heap ndarray :=
  ma ← read a; mb ← read b;
  match concat_mat axis ma mb with
  | Some m => alloc m
  | None => raise ValueError
  end.

(** [round(x)] for an [int]. *)
Definition round (x : Z) : Z := x.

(** ** The symmetricization *)

(** [matrix.max()] is an int64 scalar, so [10 * matrix.max()] is an int64
    product; the [k] the caller gives is a Python [int]. *)
Definition symmetricize (matrix : ndarray) (k : option Z) : M heap ndarray :=
  k ← match k with
      | None => mx ← ndarray_max matrix; mret (round (wrap64 (10 * mx)))
      | Some k => mret k
      end;
  matrix_bar ← ndarray_copy matrix;
  np_fill_diagonal matrix_bar 0 ;;
  s ← ndarray_shape matrix;
  ones ← np_ones s;
  ones ← ndarray_astype_int ones;
  scaled ← ndarray_mul ones k;
  u ← np_matrix scaled;
  np_fill_diagonal u 0 ;;
  matrix_symm_top ← np_concatenate u (np_transpose matrix_bar) 1;
  matrix_symm_bottom ← np_concatenate matrix_bar u 1;
  matrix_symm ← np_concatenate matrix_symm_top matrix_symm_bottom 0;
  mret matrix_symm.

(** The matrices the specification names: [C_bar] is [C] with its diagonal
    zeroed, [U n k] has 0 on the diagonal and [k] elsewhere. *)
Definition C_bar (C : mat) : mat :=
  mk_mat (shape C).1 (shape C).2
         (fun i j => if bool_decide (i = j) then 0 else get C i j).

Definition U (n : nat) (k : Z) : mat :=
  mk_mat n n (fun i j => if bool_decide (i = j) then 0 else k).

(** The [r] by [c] block of [m] whose top-left corner is [(i0, j0)]. *)
Definition block (m : mat) (i0 j0 r c : nat) : mat :=
  mk_mat r c (fun i j => get m (i0 + i) (j0 + j)).

(** The block matrix [[a b] [c d]] of four [n] by [n] matrices. *)
Definition block_matrix (n : nat) (a b c d : mat) : mat :=
  mk_mat (n + n) (n + n) (fun i j =>
    if bool_decide (i < n)%nat
    then if bool_decide (j < n)%nat then get a i j else get b i (j - n)%nat
    else if bool_decide (j < n)%nat then get c (i - n)%nat j
         else get d (i - n)%nat (j - n)%nat).

(** ** Vocabulary of the statements *)

(** The file system that holds the single file [path], with contents
    [text]. *)
Definition one_file (path text : string) : filesystem :=
  fun p => if bool_decide (p = path) then Some text else None.

(** No character of [s] ends a line when the text is read back. *)
Fixpoint no_linebreak (s : string) : bool :=
  match s with
  | EmptyString => true
  | String c s' => negb (Ascii.eqb c LF) && negb (Ascii.eqb c CR) && no_linebreak s'
  end.

(** The file the specification describes, line by line: the five header
    lines, one line per point numbered from 1, and the end marker. *)
Definition header_lines (n : nat) (norm name : string) : list string :=
  [ "NAME: " +:+ name +:+ nl;
    "TYPE: TSP" +:+ nl;
    "DIMENSION: " +:+ str_int (Z.of_nat n) +:+ nl;
    "EDGE_WEIGHT_TYPE: " +:+ norm +:+ nl;
    "NODE_COORD_SECTION" +:+ nl ].

Definition point_line (i : nat) (x y : string) : string :=
  str_int (Z.of_nat i + 1) +:+ " " +:+ x +:+ " " +:+ y +:+ nl.

Definition tsp_lines {coord} (format_coord : coord -> string)
    (xs ys : list coord) (norm name : string) : list string :=
  header_lines (length xs) norm name
  ++ imap (fun i p => point_line i (format_coord p.1) (format_coord p.2))
          (zip xs ys)
  ++ ["EOF" +:+ nl].

(** The command [m] writes no buffer of the store [h0], whatever has been
    allocated since, and what it returns satisfies [Q]. *)
Definition preserves {A} (h0 : heap) (m : M heap A) (Q : A -> Prop) : Prop :=
  forall h, h0 `prefix_of` h ->
    h0 `prefix_of` (m h).2 ∧ forall a, (m h).1 = Ok a -> Q a.

(** An array allocated after the store [h0] was taken. *)
Definition fresh (h0 : heap) (a : ndarray) : Prop :=
  (length h0 <= base a)%nat.

(** A tour file as a TSP solver writes it: the section header, one node per
    line, the closing -1 and the end marker. *)
Definition tour_file (tour : list Z) : string :=
  String.concat ""
    (("TOUR_SECTION" +:+ nl) :: ((fun node => str_int node +:+ nl) <$> tour)
     ++ ["-1" +:+ nl; "EOF" +:+ nl]).

(** No character of [s] is whitespace. *)
Fixpoint no_space (s : string) : bool :=
  match s with
  | EmptyString => true
  | String c s' => negb (isspace c) && no_space s'
  end.

(** Some line of [lines] starts the tour section. *)
Definition has_header (lines : list string) : bool :=
  existsb (fun line => startswith line "TOUR_SECTION") lines.

(** The cost of walking along the path [p] in the cost matrix [m]. *)
Fixpoint path_cost (m : mat) (p : list nat) : Z :=
  match p with
  | a :: ((b :: _) as q) => get m a b + path_cost m q
  | _ => 0
  end.

(** No two consecutive nodes of [p] are the same. *)
Fixpoint no_self_loop (p : list nat) : bool :=
  match p with
  | a :: ((b :: _) as q) => negb (a =? b)%nat && no_self_loop q
  | _ => true
  end.

(** The path of the doubled instance that stands for [p]: every node [i] is
    followed by its ghost node [n + i]. *)
Definition doubled (n : nat) (p : list nat) : list nat :=
  flat_map (fun i => [i; (n + i)%nat]) p.

(** The same text with DOS line ends: every line feed becomes a carriage
    return followed by a line feed. *)
Fixpoint crlf (s : string) : string :=
  match s with
  | EmptyString => EmptyString
  | String c s' =>
      if Ascii.eqb c LF then String CR (String LF (crlf s'))
      else String c (crlf s')
  end.

(** No character of [s] is a carriage return. *)
Fixpoint no_cr (s : string) : bool :=
  match s with
  | EmptyString => true
  | String c s' => negb (Ascii.eqb c CR) && no_cr s'
  end.

(** Every element of [m] is an int64 value. *)
Definition mat_int64 (m : mat) : bool := forallb (forallb int64) (rows m).

(** The reader as the specification describes the file, without a loop:
    the lines that count are those before the first line that starts with
    EOF and after the first line that starts with TOUR_SECTION, further
    TOUR_SECTION lines left out; the tokens of the tour are their
    whitespace-separated tokens, in order. *)
Fixpoint before_eof (lines : list string) : list string :=
  match lines with
  | [] => []
  | line :: rest =>
      if startswith line "EOF" then [] else line :: before_eof rest
  end.

Fixpoint after_header (lines : list string) : list string :=
  match lines with
  | [] => []
  | line :: rest =>
      if startswith line "TOUR_SECTION" then rest else after_header rest
  end.

Definition tour_lines (lines : list string) : list string :=
  List.filter (fun line => negb (startswith line "TOUR_SECTION"))
              (after_header (before_eof lines)).

Definition tour_tokens (lines : list string) : list string :=
  concat (split <$> tour_lines lines).

(** A character that can stand in a decimal integer literal: a digit, a
    sign or an underscore. *)
Definition numeral_char (c : ascii) : bool :=
  match digit_of c with
  | Some _ => true
  | None => Ascii.eqb c "_" || Ascii.eqb c "+" || Ascii.eqb c "-"
  end.

(** Some character of [s] satisfies [p]. *)
Fixpoint has_char (p : ascii -> bool) (s : string) : bool :=
  match s with
  | EmptyString => false
  | String c s' => p c || has_char p s'
  end.

(** * Properties *)

#[local] Arguments Ascii.eqb : simpl never.

(** ** The monads *)

Lemma for_each_app {S A} (l1 l2 : list A) (body : A -> M S unit) (s : S) :
  for_each (l1 ++ l2) body s =
  (for_each l1 body ;; for_each l2 body) s.
Proof.
  revert s; induction l1 as [|x l1 IH]; intros s; simpl; [done|].
  unfold mbind, M_bind in *. destruct (body x s) as [[[]|e] s']; [|done].
  apply IH.
Qed.

(** ** Strings *)

Lemma append_cons (c : ascii) (s1 s2 : string) :
  String c s1 +:+ s2 = String c (s1 +:+ s2).
Proof. done. Qed.

Lemma append_nil_r (s : string) : s +:+ "" = s.
Proof. induction s as [|c s IH]; [done|]. by rewrite append_cons IH. Qed.

Lemma append_assoc (s1 s2 s3 : string) :
  (s1 +:+ s2) +:+ s3 = s1 +:+ (s2 +:+ s3).
Proof. induction s1 as [|c s1 IH]; [done|]. by rewrite !append_cons IH. Qed.

Lemma concat_cons (s : string) (l : list string) :
  String.concat "" (s :: l) = s +:+ String.concat "" l.
Proof. destruct l; cbn; [by rewrite append_nil_r|done]. Qed.

Lemma concat_app (l1 l2 : list string) :
  String.concat "" (l1 ++ l2) = String.concat "" l1 +:+ String.concat "" l2.
Proof.
  induction l1 as [|s l1 IH]; [done|].
  by rewrite -app_comm_cons !concat_cons IH append_assoc.
Qed.

#[local] Arguments String.concat : simpl never.

(** ** The tour reader *)

(** The loop of the source computes what the two-mode scan of the
    specification collects, after what had been collected before. *)
Lemma scan_lines_collected (lines : list string) (has_tour : bool)
    (tour : list Z) :
  scan_lines lines has_tour tour =
  (more ← collected has_tour lines; Ok (tour ++ more)).
Proof.
  revert has_tour tour.
  induction lines as [|line rest IH]; intros has_tour tour; simpl.
  { by rewrite app_nil_r. }
  destruct (startswith line "TOUR_SECTION"); [apply IH|].
  destruct (startswith line "EOF"); [by rewrite /= app_nil_r|].
  destruct has_tour; [|apply IH].
  destruct (ints_of line) as [nodes|e]; simpl; [|done].
  rewrite IH. destruct (collected true rest) as [more|e]; simpl; [|done].
  by rewrite app_assoc.
Qed.

Lemma scan_lines_plain_prefix (pre rest : list string) (tour : list Z) :
  forallb plain_line pre = true ->
  scan_lines (pre ++ rest) false tour = scan_lines rest false tour.
Proof.
  induction pre as [|line pre IH]; simpl; [done|].
  rewrite andb_true_iff /plain_line andb_true_iff !negb_true_iff.
  intros [[-> ->] Hpre]. by apply IH.
Qed.

Lemma prefix_EOF_not_header (line : string) :
  startswith line "EOF" = true -> startswith line "TOUR_SECTION" = false.
Proof.
  destruct line as [|c line]; [done|]. simpl.
  by destruct (Ascii.eqb_spec "E" c) as [<-|].
Qed.

Lemma scan_lines_eof (pre rest : list string) (eof : string)
    (has_tour : bool) (tour : list Z) :
  startswith eof "EOF" = true ->
  scan_lines (pre ++ eof :: rest) has_tour tour =
  scan_lines (pre ++ [eof]) has_tour tour.
Proof.
  intros Heof. revert has_tour tour.
  induction pre as [|line pre IH]; intros has_tour tour; simpl.
  { by rewrite (prefix_EOF_not_header _ Heof) Heof. }
  destruct (startswith line "TOUR_SECTION"); [apply IH|].
  destruct (startswith line "EOF"); [done|].
  destruct has_tour; [|apply IH].
  destruct (ints_of line) as [nodes|e]; simpl; [apply IH|done].
Qed.

Lemma scan_lines_eof_first (pre rest : list string) (eof : string) :
  forallb (fun l => negb (startswith l "TOUR_SECTION")) pre = true ->
  startswith eof "EOF" = true ->
  scan_lines (pre ++ eof :: rest) false [] = Ok [].
Proof.
  intros Hpre Heof. induction pre as [|line pre IH]; simpl.
  { by rewrite (prefix_EOF_not_header _ Heof) Heof. }
  move: Hpre => /=. rewrite andb_true_iff negb_true_iff. intros [-> Hpre].
  destruct (startswith line "EOF"); [done|]. by apply IH.
Qed.

Lemma ints_of_raises (line : string) (e : exn) :
  ints_of line = Raise e -> e = ValueError.
Proof. rewrite /ints_of. destruct (mapM int (split line)); congruence. Qed.

Lemma scan_lines_raises (lines : list string) (has_tour : bool)
    (tour : list Z) (e : exn) :
  scan_lines lines has_tour tour = Raise e -> e = ValueError.
Proof.
  revert has_tour tour.
  induction lines as [|line rest IH]; intros has_tour tour; simpl; [done|].
  destruct (startswith line "TOUR_SECTION"); [apply IH|].
  destruct (startswith line "EOF"); [done|].
  destruct has_tour; [|apply IH].
  destruct (ints_of line) as [nodes|e'] eqn:Hline; simpl; [apply IH|].
  intros [= <-]. by eapply ints_of_raises.
Qed.

(** C6: on the file that holds TOUR_SECTION, 1 2 3, -1, EOF, one per line,
    the reader returns [1, 2, 3]; on the file that holds TOUR_SECTION,
    5 4 3 2 1, EOF it returns [5, 4, 3, 2, 1]; and whenever the scan has
    collected a tour ending in x, the value x is dropped exactly when it is
    -1. *)
Theorem read_tsp_tour_examples (fname : string) :
  read_tsp_tour
    (one_file fname ("TOUR_SECTION" +:+ nl +:+ "1 2 3" +:+ nl +:+ "-1" +:+ nl
                     +:+ "EOF" +:+ nl)) fname = Ok [1; 2; 3] ∧
  read_tsp_tour
    (one_file fname ("TOUR_SECTION" +:+ nl +:+ "5 4 3 2 1" +:+ nl
                     +:+ "EOF" +:+ nl)) fname = Ok [5; 4; 3; 2; 1] ∧
  (forall text tour x,
     scan_lines (readlines text) false [] = Ok (tour ++ [x]) ->
     read_tsp_tour (one_file fname text) fname =
     Ok (if bool_decide (x = -1) then tour else tour ++ [x])).
Proof.
  rewrite /read_tsp_tour /one_file bool_decide_eq_true_2 //.
  split; [by vm_compute|]. split; [by vm_compute|].
  intros text tour x ->. simpl.
  rewrite bool_decide_eq_false_2; [by destruct tour|].
  rewrite /strip_sentinel last_snoc removelast_last.
  f_equal. repeat case_bool_decide; naive_solver.
Qed.


(** C8 does not hold of the code: the emptiness test comes before the
    sentinel is removed, so a tour section that holds the single token -1
    passes the test and the call returns the empty tour. *)
Theorem read_tsp_tour_sentinel_only :
  read_tsp_tour
    (one_file "t.sol" ("TOUR_SECTION" +:+ nl +:+ "-1" +:+ nl +:+ "EOF" +:+ nl))
    "t.sol" = Ok [].
Proof. by vm_compute. Qed.

(** ** The TSPLIB writer *)

Lemma EDGE_WEIGHT_TYPES_size : size EDGE_WEIGHT_TYPES = 10%nat.
Proof. by vm_compute. Qed.

Lemma EDGE_WEIGHT_TYPES_elem (norm : string) :
  norm ∈ EDGE_WEIGHT_TYPES <->
  norm ∈ ["EXPLICIT"; "EUC_2D"; "EUC_3D"; "MAX_2D"; "MAN_2D";
          "GEO"; "GEOM"; "ATT"; "CEIL_2D"; "DSJRAND"].
Proof. rewrite /EDGE_WEIGHT_TYPES. set_unfold. tauto. Qed.

Section WriterFacts.
Context {coord : Type} (format_coord : coord -> string).

(** The loop over the points appends one line per point, numbered from
    [start]. *)
Lemma write_points (ps : list (coord * coord)) (start : Z) (fp : sink) :
  for_each (enumerate start ps) (fun '(n, (x, y)) =>
    fp_write (str_int n +:+ " " +:+ format_coord x +:+ " "
              +:+ format_coord y +:+ nl)) fp =
  (Ok tt,
   fp +:+ String.concat ""
     (imap (fun i p => str_int (Z.of_nat i + start) +:+ " "
                        +:+ format_coord p.1 +:+ " "
                        +:+ format_coord p.2 +:+ nl) ps)).
Proof.
  revert start fp. induction ps as [|[x y] ps IH]; intros start fp.
  { by rewrite /= append_nil_r. }
  rewrite imap_cons concat_cons.
  rewrite [for_each _ _ _]/= /mbind /M_bind {1}/fp_write IH append_assoc.
  do 2 f_equal. erewrite imap_ext; [reflexivity|]. intros i p _. simpl.
  by replace (Z.of_nat (S i) + start) with (Z.of_nat i + (start + 1)) by lia.
Qed.

Lemma write_tsp_file_run (xs ys : list coord) (norm name : string)
    (fp : sink) :
  length xs = length ys -> norm ∈ EDGE_WEIGHT_TYPES ->
  write_tsp_file format_coord xs ys norm name fp =
  (Ok tt, fp +:+ String.concat "" (tsp_lines format_coord xs ys norm name)).
Proof.
  intros Hlen Hnorm. rewrite /write_tsp_file.
  rewrite bool_decide_eq_false_2; [by intros []|].
  rewrite bool_decide_eq_false_2; [by intros []|].
  rewrite /mbind /M_bind /mret /M_ret /fp_write /= write_points.
  rewrite /tsp_lines /header_lines /point_line.
  by rewrite !(concat_cons, concat_app, append_assoc) append_nil_r.
Qed.

Lemma write_tsp_file_raises (xs ys : list coord) (norm name : string)
    (fp : sink) :
  length xs ≠ length ys ∨ norm ∉ EDGE_WEIGHT_TYPES ->
  write_tsp_file format_coord xs ys norm name fp = (Raise ValueError, fp).
Proof.
  intros Hbad. rewrite /write_tsp_file /mbind /M_bind /mret /M_ret /raise.
  case_bool_decide; [done|]. case_bool_decide; [done|]. naive_solver.
Qed.

End WriterFacts.

(** *** Decimal numerals: [int(str(n)) == n], and no line break in them *)

Lemma int_digits_uint_acc (d : Decimal.uint) (acc : positive) (b : bool) :
  b = true ∨ d ≠ Decimal.Nil ->
  int_digits (Z.pos acc) b (NilEmpty.string_of_uint d) =
  Some (Z.pos (Pos.of_uint_acc d acc)).
Proof.
  revert acc b. induction d; intros acc b Hb; simpl.
  { by destruct Hb as [->|]. }
  all: rewrite -(IHd _ true (or_introl eq_refl)); f_equal; lia.
Qed.

Lemma int_digits_uint (d : Decimal.uint) (b : bool) :
  b = true ∨ d ≠ Decimal.Nil ->
  int_digits 0 b (NilEmpty.string_of_uint d) = Some (Z.of_uint d).
Proof.
  rewrite /Z.of_uint. revert b. induction d; intros b Hb; simpl;
    try (by rewrite (int_digits_uint_acc d _ true (or_introl eq_refl))).
  - by destruct Hb as [->|].
  - apply IHd. by left.
Qed.

Lemma int_digits_NilZero (d : Decimal.uint) :
  int_digits 0 false (NilZero.string_of_uint d) = Some (Z.of_uint d).
Proof. destruct d; try (by apply int_digits_uint; right). done. Qed.

Lemma int_NilZero (d : Decimal.uint) :
  int (NilZero.string_of_uint d) = Some (Z.of_uint d).
Proof. rewrite -int_digits_NilZero. by destruct d. Qed.

Lemma int_str_int (n : Z) : int (str_int n) = Some n.
Proof.
  rewrite -{2}(DecimalZ.of_to n) /str_int.
  destruct (Z.to_int n) as [d|d]; simpl.
  - apply int_NilZero.
  - by rewrite int_digits_NilZero.
Qed.

Lemma no_linebreak_app (s1 s2 : string) :
  no_linebreak (s1 +:+ s2) = no_linebreak s1 && no_linebreak s2.
Proof.
  induction s1 as [|c s1 IH]; [done|].
  by rewrite append_cons /= IH andb_assoc.
Qed.

Lemma no_linebreak_str_int (n : Z) : no_linebreak (str_int n) = true.
Proof.
  assert (forall d, no_linebreak (NilEmpty.string_of_uint d) = true) as Hne.
  { induction d; simpl; by rewrite ?IHd. }
  assert (forall d, no_linebreak (NilZero.string_of_uint d) = true) as Hnz.
  { destruct d; try apply Hne. done. }
  rewrite /str_int. destruct (Z.to_int n) as [d|d]; simpl; by rewrite ?Hnz.
Qed.

Lemma no_linebreak_norm (norm : string) :
  norm ∈ EDGE_WEIGHT_TYPES -> no_linebreak norm = true.
Proof.
  rewrite EDGE_WEIGHT_TYPES_elem !elem_of_cons elem_of_nil.
  intros H. repeat (destruct H as [->|H]; [by vm_compute|]). done.
Qed.

(** *** Reading the written text back, line by line *)

Lemma readlines_line (body rest : string) :
  no_linebreak body = true ->
  readlines (body +:+ nl +:+ rest) = (body +:+ nl) :: readlines rest.
Proof.
  rewrite /readlines. induction body as [|c body IH]; [done|].
  rewrite /= !andb_true_iff !negb_true_iff. intros [[Hlf Hcr] Hbody].
  by rewrite !append_cons /= Hcr Hlf /= Hlf IH.
Qed.

Lemma readlines_concat (lines : list string) :
  Forall (fun l => exists body, l = body +:+ nl ∧ no_linebreak body = true)
         lines ->
  readlines (String.concat "" lines) = lines.
Proof.
  induction 1 as [|l lines (body & -> & Hbody) _ IH]; [done|].
  by rewrite concat_cons append_assoc readlines_line // IH.
Qed.

Lemma tsp_lines_are_lines {coord} (format_coord : coord -> string)
    (xs ys : list coord) (norm name : string) :
  norm ∈ EDGE_WEIGHT_TYPES ->
  no_linebreak name = true ->
  forallb (fun x => no_linebreak (format_coord x)) (xs ++ ys) = true ->
  Forall (fun l => exists body, l = body +:+ nl ∧ no_linebreak body = true)
         (tsp_lines format_coord xs ys norm name).
Proof.
  intros Hnorm%no_linebreak_norm Hname Hfmt.
  rewrite forallb_app andb_true_iff !forallb_forall in Hfmt.
  destruct Hfmt as [Hxs Hys].
  rewrite /tsp_lines /header_lines !Forall_app !Forall_cons Forall_nil.
  split_and!; try done.
  - exists ("NAME: " +:+ name). by rewrite append_assoc no_linebreak_app Hname.
  - by exists "TYPE: TSP".
  - exists ("DIMENSION: " +:+ str_int (Z.of_nat (length xs))).
    by rewrite append_assoc no_linebreak_app no_linebreak_str_int.
  - exists ("EDGE_WEIGHT_TYPE: " +:+ norm).
    by rewrite append_assoc no_linebreak_app Hnorm.
  - by exists "NODE_COORD_SECTION".
  - apply Forall_lookup. intros i l.
    rewrite list_lookup_imap /zip. intros ([x y] & Hxy & ->)%fmap_Some.
    apply lookup_zip_with_Some in Hxy as (x' & y' & [= <- <-] & Hx & Hy).
    apply list_elem_of_lookup_2, list_elem_of_In, Hxs in Hx.
    apply list_elem_of_lookup_2, list_elem_of_In, Hys in Hy.
    exists (str_int (Z.of_nat i + 1) +:+ " " +:+ format_coord x +:+ " "
            +:+ format_coord y).
    rewrite /point_line !append_assoc. split; [done|].
    by rewrite !no_linebreak_app no_linebreak_str_int /= Hx Hy.
  - by exists "EOF".
Qed.

Lemma length_tsp_lines {coord} (format_coord : coord -> string)
    (xs ys : list coord) (norm name : string) :
  length xs = length ys ->
  length (tsp_lines format_coord xs ys norm name) = (length xs + 6)%nat.
Proof.
  intros Hlen.
  rewrite /tsp_lines /zip !length_app length_imap length_zip_with /=. lia.
Qed.

(** C2 fails as it is stated: the file of an empty instance already has six
    lines, the five header lines and the end marker, and not five. *)
Lemma write_tsp_file_empty_instance :
  let out := write_tsp_file str_int [] [] "EUC_2D" "empty" "" in
  out.1 = Ok tt ∧ length (readlines out.2) = 6%nat ∧
  length (readlines out.2) ≠ (length (@nil Z) + 5)%nat.
Proof. by vm_compute. Qed.

(** C2, amended: for coordinate sequences of equal length, a recognized
    norm, and a name and formatted coordinates that hold no line break, the
    text written to an empty sink reads back as exactly len(xs) + 6 lines
    (five header lines, one line per point, the end marker), and its third
    line is the DIMENSION line, whose value is the decimal numeral of
    len(xs). *)
Theorem write_tsp_file_line_count {coord} (format_coord : coord -> string)
    (xs ys : list coord) (norm name : string) :
  length xs = length ys ->
  norm ∈ EDGE_WEIGHT_TYPES ->
  no_linebreak name = true ->
  forallb (fun x => no_linebreak (format_coord x)) (xs ++ ys) = true ->
  exists text,
    write_tsp_file format_coord xs ys norm name "" = (Ok tt, text) ∧
    length (readlines text) = (length xs + 6)%nat ∧
    readlines text !! 2%nat =
      Some ("DIMENSION: " +:+ str_int (Z.of_nat (length xs)) +:+ nl) ∧
    int (str_int (Z.of_nat (length xs))) = Some (Z.of_nat (length xs)).
Proof.
  intros Hlen Hnorm Hname Hfmt. eexists. split.
  { by apply write_tsp_file_run. }
  change ("" +:+ ?s) with s.
  rewrite readlines_concat; [by apply tsp_lines_are_lines|].
  split_and!; [by apply length_tsp_lines|done|apply int_str_int].
Qed.

Lemma write_tsp_file_line_count_witness :
  exists text,
    write_tsp_file str_int [0; 3] [0; 4] "EUC_2D" "pair" "" = (Ok tt, text) ∧
    length (readlines text) = (length [0; 3] + 6)%nat ∧
    readlines text !! 2%nat =
      Some ("DIMENSION: " +:+ str_int (Z.of_nat (length [0; 3])) +:+ nl) ∧
    int (str_int (Z.of_nat (length [0; 3]))) = Some (Z.of_nat (length [0; 3])).
Proof.
  apply (write_tsp_file_line_count str_int [0; 3] [0; 4] "EUC_2D" "pair").
  - reflexivity.
  - by vm_compute.
  - reflexivity.
  - reflexivity.
Defined.

(** C3: the writer raises ValueError if and only if the two coordinate
    sequences differ in length or the norm is not one of the ten recognized
    identifiers; it raises nothing else, and whenever it raises, the sink
    holds exactly what it held before the call. *)
Theorem write_tsp_file_validation {coord} (format_coord : coord -> string)
    (xs ys : list coord) (norm name : string) (fp : sink) :
  ((write_tsp_file format_coord xs ys norm name fp).1 = Raise ValueError <->
   length xs ≠ length ys ∨ norm ∉ EDGE_WEIGHT_TYPES) ∧
  (forall e,
     (write_tsp_file format_coord xs ys norm name fp).1 = Raise e ->
     e = ValueError ∧
     (write_tsp_file format_coord xs ys norm name fp).2 = fp) ∧
  size EDGE_WEIGHT_TYPES = 10%nat.
Proof.
  destruct (decide (length xs ≠ length ys ∨ norm ∉ EDGE_WEIGHT_TYPES))
    as [Hbad|Hok].
  - rewrite write_tsp_file_raises //=.
    split_and!; [done| |apply EDGE_WEIGHT_TYPES_size]. by intros e [= <-].
  - assert (length xs = length ys ∧ norm ∈ EDGE_WEIGHT_TYPES) as [Hlen Hnorm].
    { split; apply dec_stable; naive_solver. }
    rewrite write_tsp_file_run //=.
Qed.

(** C4: for coordinate sequences of equal length and a recognized norm the
    writer succeeds and appends to the sink, in this order, the NAME line,
    the TYPE: TSP line, the DIMENSION line with the number of points, the
    EDGE_WEIGHT_TYPE line, the NODE_COORD_SECTION header, one line per
    point, made of its 1-based index, x and y in input order, and the EOF
    line. *)
Theorem write_tsp_file_output {coord} (format_coord : coord -> string)
    (xs ys : list coord) (norm name : string) (fp : sink) :
  length xs = length ys ->
  norm ∈ EDGE_WEIGHT_TYPES ->
  let lines := tsp_lines format_coord xs ys norm name in
  write_tsp_file format_coord xs ys norm name fp =
    (Ok tt, fp +:+ String.concat "" lines) ∧
  length lines = (length xs + 6)%nat ∧
  lines !! 0%nat = Some ("NAME: " +:+ name +:+ nl) ∧
  lines !! 1%nat = Some ("TYPE: TSP" +:+ nl) ∧
  lines !! 2%nat =
    Some ("DIMENSION: " +:+ str_int (Z.of_nat (length xs)) +:+ nl) ∧
  lines !! 3%nat = Some ("EDGE_WEIGHT_TYPE: " +:+ norm +:+ nl) ∧
  lines !! 4%nat = Some ("NODE_COORD_SECTION" +:+ nl) ∧
  (forall i x y,
     xs !! i = Some x -> ys !! i = Some y ->
     lines !! (5 + i)%nat =
       Some (str_int (Z.of_nat i + 1) +:+ " " +:+ format_coord x +:+ " "
             +:+ format_coord y +:+ nl)) ∧
  lines !! (5 + length xs)%nat = Some ("EOF" +:+ nl).
Proof.
  intros Hlen Hnorm lines.
  split_and!; try done.
  - by apply write_tsp_file_run.
  - by apply length_tsp_lines.
  - intros i x y Hx Hy. rewrite /lines /tsp_lines.
    rewrite lookup_app_r /=; [lia|]. rewrite Nat.sub_0_r.
    rewrite lookup_app_l.
    { rewrite length_imap length_zip_with. apply lookup_lt_Some in Hx, Hy. lia. }
    rewrite list_lookup_imap /zip.
    by rewrite (proj2 (lookup_zip_with_Some pair xs ys i (x, y)));
      [exists x, y|].
  - rewrite /lines /tsp_lines lookup_app_r /=; [lia|].
    rewrite Nat.sub_0_r lookup_app_r length_imap length_zip_with; [lia|].
    by replace (length xs - length xs `min` length ys)%nat with 0%nat by lia.
Qed.

Lemma write_tsp_file_output_witness :
  write_tsp_file str_int [0; 3] [0; 4] "EUC_2D" "pair" "seen" =
  (Ok tt, "seen" +:+ String.concat ""
            (tsp_lines str_int [0; 3] [0; 4] "EUC_2D" "pair")).
Proof.
  refine (proj1 (write_tsp_file_output str_int [0; 3] [0; 4] "EUC_2D" "pair"
                   "seen" _ _)).
  - reflexivity.
  - by vm_compute.
Defined.

(** ** Matrices *)

Lemma lookup_tabulate {A} (f : nat -> A) (n j : nat) :
  (f <$> seq 0 n) !! j = if bool_decide (j < n)%nat then Some (f j) else None.
Proof.
  rewrite list_lookup_fmap. case_bool_decide.
  - by rewrite lookup_seq_lt.
  - rewrite lookup_seq_ge //. lia.
Qed.

Lemma tabulate_ext {A} (f g : nat -> A) (n : nat) :
  (forall i, (i < n)%nat -> f i = g i) -> f <$> seq 0 n = g <$> seq 0 n.
Proof.
  intros Hfg. apply list_eq. intros i. rewrite !lookup_tabulate.
  case_bool_decide; [|done]. by rewrite Hfg.
Qed.

Lemma tabulate_lookup_total {A} (d : A) (l : list A) :
  (fun i => default d (l !! i)) <$> seq 0 (length l) = l.
Proof.
  apply list_eq. intros i. rewrite lookup_tabulate. case_bool_decide as Hi.
  - apply lookup_lt_is_Some in Hi as [x Hx]. by rewrite Hx.
  - symmetry. apply lookup_ge_None. lia.
Qed.

Lemma mk_mat_wf (r c : nat) (f : nat -> nat -> Z) : mat_wf (mk_mat r c f).
Proof.
  split; simpl.
  - by rewrite length_fmap length_seq.
  - apply Forall_fmap, Forall_forall. intros i _.
    by rewrite /= length_fmap length_seq.
Qed.

Lemma entry_mk_mat (r c : nat) (f : nat -> nat -> Z) (i j : nat) :
  entry (mk_mat r c f) i j =
  if bool_decide (i < r)%nat && bool_decide (j < c)%nat
  then Some (f i j) else None.
Proof.
  rewrite /entry /= lookup_tabulate.
  case_bool_decide; [|done]. by rewrite /= lookup_tabulate.
Qed.

Lemma get_mk_mat (r c : nat) (f : nat -> nat -> Z) (i j : nat) :
  (i < r)%nat -> (j < c)%nat -> get (mk_mat r c f) i j = f i j.
Proof.
  intros Hi Hj. by rewrite /get entry_mk_mat !bool_decide_eq_true_2.
Qed.

Lemma mk_mat_ext (r c : nat) (f g : nat -> nat -> Z) :
  (forall i j, (i < r)%nat -> (j < c)%nat -> f i j = g i j) ->
  mk_mat r c f = mk_mat r c g.
Proof.
  intros Hfg. rewrite /mk_mat. f_equal.
  apply tabulate_ext. intros i Hi. apply tabulate_ext. intros j Hj. auto.
Qed.

(** A well-formed matrix is the table of its elements. *)
Lemma mat_eta (m : mat) :
  mat_wf m -> m = mk_mat (shape m).1 (shape m).2 (get m).
Proof.
  destruct m as [[r c] rs]. rewrite /mat_wf /mk_mat /=. intros [<- Hrows].
  f_equal. rewrite -{1}(tabulate_lookup_total [] rs).
  apply tabulate_ext. intros i Hi.
  apply lookup_lt_is_Some in Hi as [row Hrow].
  rewrite /get /entry /= Hrow /=.
  rewrite -(Forall_lookup_1 _ _ _ _ Hrows Hrow).
  by rewrite tabulate_lookup_total.
Qed.

Lemma fill_diagonal_mk_mat (v : Z) (r c : nat) (f : nat -> nat -> Z) :
  fill_diagonal_mat v (mk_mat r c f) =
  mk_mat r c (fun i j => if bool_decide (i = j) then v else f i j).
Proof.
  rewrite /fill_diagonal_mat /mk_mat /=. f_equal.
  apply list_eq. intros i.
  rewrite list_lookup_imap !lookup_tabulate. case_bool_decide; [|done].
  simpl. f_equal. apply list_eq. intros j.
  rewrite list_lookup_insert length_fmap length_seq !lookup_tabulate.
  repeat (case_bool_decide || case_decide); naive_solver lia.
Qed.

Lemma int64_range (x : Z) : int64 x = true <-> - 2 ^ 63 <= x < 2 ^ 63.
Proof. rewrite /int64 andb_true_iff Z.leb_le Z.ltb_lt //. Qed.

Lemma wrap64_int64 (x : Z) : int64 (wrap64 x) = true.
Proof.
  apply int64_range. rewrite /wrap64.
  pose proof (Z.mod_pos_bound (x + 2 ^ 63) (2 ^ 64)). lia.
Qed.

Lemma wrap64_id (x : Z) : int64 x = true -> wrap64 x = x.
Proof.
  intros Hx%int64_range. rewrite /wrap64 Z.mod_small; lia.
Qed.

Lemma scale_mk_mat (k : Z) (r c : nat) (f : nat -> nat -> Z) :
  scale_mat k (mk_mat r c f) = mk_mat r c (fun i j => wrap64 (f i j * k)).
Proof.
  rewrite /scale_mat /mk_mat /=. f_equal.
  rewrite -list_fmap_compose. apply tabulate_ext. intros i _.
  by rewrite /= -list_fmap_compose.
Qed.

Lemma transpose_mk_mat (r c : nat) (f : nat -> nat -> Z) :
  transpose_mat (mk_mat r c f) = mk_mat c r (fun i j => f j i).
Proof.
  rewrite /transpose_mat /=. apply mk_mat_ext. intros i j Hi Hj.
  by apply get_mk_mat.
Qed.

Lemma concat_columns_mk_mat (r c1 c2 : nat) (f g : nat -> nat -> Z) :
  concat_mat 1 (mk_mat r c1 f) (mk_mat r c2 g) =
  Some (mk_mat r (c1 + c2) (fun i j =>
          if bool_decide (j < c1)%nat then f i j else g i (j - c1)%nat)).
Proof.
  rewrite /concat_mat /= bool_decide_eq_true_2 // /mk_mat. do 2 f_equal.
  apply list_eq. intros i.
  rewrite lookup_zip_with !lookup_tabulate. case_bool_decide; [|done].
  simpl. f_equal. apply list_eq. intros j.
  rewrite lookup_app !lookup_tabulate length_fmap length_seq.
  repeat case_bool_decide; try done; lia.
Qed.

Lemma concat_rows_mk_mat (r1 r2 c : nat) (f g : nat -> nat -> Z) :
  concat_mat 0 (mk_mat r1 c f) (mk_mat r2 c g) =
  Some (mk_mat (r1 + r2) c (fun i j =>
          if bool_decide (i < r1)%nat then f i j else g (i - r1)%nat j)).
Proof.
  rewrite /concat_mat /= bool_decide_eq_true_2 // /mk_mat. do 2 f_equal.
  apply list_eq. intros i.
  rewrite lookup_app !lookup_tabulate length_fmap length_seq.
  repeat case_bool_decide; try done; lia.
Qed.

(** ** The store *)

Lemma M_bind_ok {S A B} (m : M S A) (f : A -> M S B) (s s' : S) (a : A) :
  m s = (Ok a, s') -> (m ≫= f) s = f a s'.
Proof. rewrite /mbind /M_bind. by intros ->. Qed.

Lemma M_bind_raise {S A B} (m : M S A) (f : A -> M S B) (s s' : S) (e : exn) :
  m s = (Raise e, s') -> (m ≫= f) s = (Raise e, s').
Proof. rewrite /mbind /M_bind. by intros ->. Qed.

Lemma view_app_l (h l : heap) (a : ndarray) (m : mat) :
  view h a = Some m -> view (h ++ l) a = Some m.
Proof.
  rewrite /view. destruct (h !! base a) as [m'|] eqn:Hm; [|done].
  by rewrite (lookup_app_l_Some _ _ _ _ Hm).
Qed.

Lemma view_app_r (h l : heap) (k : nat) (t : bool) :
  view (h ++ l) (NdArray (length h + k)%nat t) = view l (NdArray k t).
Proof.
  rewrite /view /= lookup_app_r; [lia|].
  by replace (length h + k - length h)%nat with k by lia.
Qed.

Section Store.
Context (h l : heap).

Lemma alloc_run (m : mat) :
  alloc m (h ++ l) =
  (Ok (NdArray (length h + length l)%nat false), h ++ (l ++ [m])).
Proof. by rewrite /alloc length_app app_assoc. Qed.

Lemma read_run (a : ndarray) (m : mat) :
  view (h ++ l) a = Some m -> read a (h ++ l) = (Ok m, h ++ l).
Proof. rewrite /read. by intros ->. Qed.

Lemma ndarray_copy_run (a : ndarray) (m : mat) :
  view (h ++ l) a = Some m ->
  ndarray_copy a (h ++ l) =
  (Ok (NdArray (length h + length l)%nat false), h ++ (l ++ [m])).
Proof.
  intros Ha. rewrite /ndarray_copy (M_bind_ok _ _ _ _ _ (read_run a m Ha)).
  apply alloc_run.
Qed.

Lemma ndarray_shape_run (a : ndarray) (m : mat) :
  view (h ++ l) a = Some m ->
  ndarray_shape a (h ++ l) = (Ok (shape m), h ++ l).
Proof.
  intros Ha. by rewrite /ndarray_shape (M_bind_ok _ _ _ _ _ (read_run a m Ha)).
Qed.

Lemma ndarray_mul_run (a : ndarray) (k : Z) (m : mat) :
  int64 k = true ->
  view (h ++ l) a = Some m ->
  ndarray_mul a k (h ++ l) =
  (Ok (NdArray (length h + length l)%nat false), h ++ (l ++ [scale_mat k m])).
Proof.
  intros Hk Ha.
  rewrite /ndarray_mul Hk (M_bind_ok _ _ _ _ _ (read_run a m Ha)).
  apply alloc_run.
Qed.

Lemma ndarray_mul_overflow (a : ndarray) (k : Z) :
  int64 k = false ->
  ndarray_mul a k (h ++ l) = (Raise OverflowError, h ++ l).
Proof. intros Hk. by rewrite /ndarray_mul Hk. Qed.

Lemma np_fill_diagonal_run (i : nat) (t : bool) (v : Z) (m : mat) :
  l !! i = Some m ->
  np_fill_diagonal (NdArray (length h + i)%nat t) v (h ++ l) =
  (Ok tt, h ++ <[i := fill_diagonal_mat v m]> l).
Proof.
  intros Hi. rewrite /np_fill_diagonal /= lookup_app_r; [lia|].
  replace (length h + i - length h)%nat with i by lia.
  by rewrite Hi insert_app_r.
Qed.

Lemma np_concatenate_run (a b : ndarray) (axis : nat) (ma mb m : mat) :
  view (h ++ l) a = Some ma -> view (h ++ l) b = Some mb ->
  concat_mat axis ma mb = Some m ->
  np_concatenate a b axis (h ++ l) =
  (Ok (NdArray (length h + length l)%nat false), h ++ (l ++ [m])).
Proof.
  intros Ha Hb Hm. rewrite /np_concatenate.
  rewrite (M_bind_ok _ _ _ _ _ (read_run a ma Ha)).
  rewrite (M_bind_ok _ _ _ _ _ (read_run b mb Hb)) Hm.
  apply alloc_run.
Qed.

End Store.

(** ** The symmetricization *)

#[local] Arguments mk_mat : simpl never.
#[local] Arguments fill_diagonal_mat : simpl never.
#[local] Arguments scale_mat : simpl never.
#[local] Arguments wrap64 : simpl never.
#[local] Arguments int64 : simpl never.
#[local] Arguments transpose_mat : simpl never.
#[local] Arguments concat_mat : simpl never.

Lemma C_bar_mk_mat (n : nat) (c : nat -> nat -> Z) :
  C_bar (mk_mat n n c) =
  mk_mat n n (fun i j => if bool_decide (i = j) then 0 else c i j).
Proof.
  rewrite /C_bar /=. apply mk_mat_ext. intros i j Hi Hj.
  case_bool_decide; [done|]. by apply get_mk_mat.
Qed.

(** One step of a run: the first command of a sequence returns, by [tac],
    and the run goes on with what follows. *)
Ltac run_step tac :=
  erewrite M_bind_ok; [|tac]; cbv beta; simpl;
  rewrite ?fill_diagonal_mk_mat ?scale_mk_mat ?transpose_mk_mat.

Ltac view_here :=
  first [ by apply view_app_l
        | rewrite /np_transpose /= view_app_r /= ?transpose_mk_mat; reflexivity ].

(** One run of [symmetricize] with [k] given, on a square matrix: eight
    buffers are allocated, no buffer of the caller is written, and the last
    one holds the block matrix of the construction. *)
Lemma symmetricize_run (h : heap) (matrix : ndarray) (C : mat) (n : nat)
    (k : Z) :
  view h matrix = Some C -> mat_wf C -> shape C = (n, n) ->
  int64 k = true ->
  exists h',
    symmetricize matrix (Some k) h =
      (Ok (NdArray (length h + 7)%nat false), h ++ h') ∧
    h' !! 7%nat =
      Some (block_matrix n (U n k) (transpose_mat (C_bar C)) (C_bar C)
                         (U n k)).
Proof.
  intros Hview Hwf Hshape Hk.
  pose proof (mat_eta C Hwf) as HC. rewrite Hshape /= in HC.
  set (c := get C) in HC. clearbody c. subst C. clear Hwf Hshape.
  eexists. split.
  - rewrite -{1}(app_nil_r h) /symmetricize.
    run_step ltac:(reflexivity).
    run_step ltac:(apply ndarray_copy_run; view_here).
    run_step ltac:(by apply np_fill_diagonal_run).
    run_step ltac:(apply ndarray_shape_run; view_here).
    run_step ltac:(apply alloc_run).
    run_step ltac:(apply ndarray_copy_run; view_here).
    run_step ltac:(apply ndarray_mul_run; [done|view_here]).
    run_step ltac:(apply ndarray_copy_run; view_here).
    run_step ltac:(by apply np_fill_diagonal_run).
    run_step ltac:(eapply np_concatenate_run;
                   [view_here|view_here|apply concat_columns_mk_mat]).
    run_step ltac:(eapply np_concatenate_run;
                   [view_here|view_here|apply concat_columns_mk_mat]).
    run_step ltac:(eapply np_concatenate_run;
                   [view_here|view_here|apply concat_rows_mk_mat]).
    reflexivity.
  - simpl. f_equal. rewrite /block_matrix C_bar_mk_mat /U transpose_mk_mat.
    apply mk_mat_ext. intros i j Hi Hj. rewrite Z.mul_1_l wrap64_id //.
    repeat case_bool_decide; rewrite ?get_mk_mat; try lia;
      repeat case_bool_decide; try done; lia.
Qed.

(** *** What a run leaves of the caller's buffers *)

Lemma preserves_bind {A B} (h0 : heap) (m : M heap A) (f : A -> M heap B)
    (Q : A -> Prop) (R : B -> Prop) :
  preserves h0 m Q -> (forall a, Q a -> preserves h0 (f a) R) ->
  preserves h0 (m ≫= f) R.
Proof.
  intros Hm Hf h Hh. destruct (Hm h Hh) as [Hpre HQ].
  rewrite /mbind /M_bind. destruct (m h) as [[a|e] h1]; [|done].
  apply Hf; [by apply HQ|done].
Qed.

Lemma preserves_ret {A} (h0 : heap) (a : A) (Q : A -> Prop) :
  Q a -> preserves h0 (mret a) Q.
Proof. intros Ha h Hh. split; [done|]. by intros a' [= <-]. Qed.

Lemma preserves_raise {A} (h0 : heap) (e : exn) (Q : A -> Prop) :
  preserves h0 (raise e) Q.
Proof. by intros h Hh. Qed.

Lemma preserves_read (h0 : heap) (a : ndarray) :
  preserves h0 (read a) (fun _ => True).
Proof. intros h Hh. rewrite /read. by destruct (view h a). Qed.

Lemma preserves_alloc (h0 : heap) (m : mat) :
  preserves h0 (alloc m) (fresh h0).
Proof.
  intros h Hh. split; [by apply prefix_app_r|].
  intros a [= <-]. rewrite /fresh /=. by apply prefix_length.
Qed.

Lemma preserves_copy (h0 : heap) (a : ndarray) :
  preserves h0 (ndarray_copy a) (fresh h0).
Proof.
  eapply preserves_bind; [apply preserves_read|].
  intros m _. apply preserves_alloc.
Qed.

Lemma preserves_fill_diagonal (h0 : heap) (a : ndarray) (v : Z) :
  fresh h0 a -> preserves h0 (np_fill_diagonal a v) (fun _ => True).
Proof.
  intros Ha h [l ->]. rewrite /np_fill_diagonal.
  destruct (_ !! base a) as [m|]; cbn [fst snd].
  - split; [|done]. rewrite insert_app_r_alt //. by eexists.
  - split; [by eexists|done].
Qed.

Lemma preserves_concatenate (h0 : heap) (a b : ndarray) (axis : nat) :
  preserves h0 (np_concatenate a b axis) (fresh h0).
Proof.
  eapply preserves_bind; [apply preserves_read|]. intros ma _.
  eapply preserves_bind; [apply preserves_read|]. intros mb _.
  destruct (concat_mat axis ma mb);
    [apply preserves_alloc|apply preserves_raise].
Qed.

Lemma preserves_max (h0 : heap) (a : ndarray) :
  preserves h0 (ndarray_max a) (fun _ => True).
Proof.
  eapply preserves_bind; [apply preserves_read|]. intros m _.
  destruct (mat_max m); [by apply preserves_ret|apply preserves_raise].
Qed.

Lemma preserves_mul (h0 : heap) (a : ndarray) (k : Z) :
  preserves h0 (ndarray_mul a k) (fresh h0).
Proof.
  rewrite /ndarray_mul. destruct (int64 k); [|apply preserves_raise].
  eapply preserves_bind; [apply preserves_read|].
  intros m _. apply preserves_alloc.
Qed.

Lemma preserves_symmetricize (h0 : heap) (matrix : ndarray) (k : option Z) :
  preserves h0 (symmetricize matrix k) (fresh h0).
Proof.
  rewrite /symmetricize.
  eapply (preserves_bind _ _ _ (fun _ => True)).
  { destruct k; [by apply preserves_ret|].
    eapply preserves_bind; [apply preserves_max|].
    intros mx _. by apply preserves_ret. }
  intros k' _.
  eapply preserves_bind; [apply preserves_copy|]. intros matrix_bar Hbar.
  eapply preserves_bind; [by apply preserves_fill_diagonal|]. intros _ _.
  eapply (preserves_bind _ _ _ (fun _ => True)).
  { eapply preserves_bind; [apply preserves_read|].
    intros m _. by apply preserves_ret. }
  intros s _.
  eapply preserves_bind; [apply preserves_alloc|]. intros ones _.
  eapply preserves_bind; [apply preserves_copy|]. intros ones' _.
  eapply preserves_bind; [apply preserves_mul|]. intros scaled _.
  eapply preserves_bind; [apply preserves_copy|]. intros u Hu.
  eapply preserves_bind; [by apply preserves_fill_diagonal|]. intros _ _.
  eapply preserves_bind; [apply preserves_concatenate|]. intros top _.
  eapply preserves_bind; [apply preserves_concatenate|]. intros bottom _.
  eapply preserves_bind; [apply preserves_concatenate|]. intros symm Hsymm.
  by apply preserves_ret.
Qed.

(** *** The block matrix of the construction *)

Ltac block_cases :=
  rewrite ?C_bar_mk_mat /U ?transpose_mk_mat;
  repeat case_bool_decide; rewrite ?get_mk_mat; try lia;
  repeat case_bool_decide; try done; try lia.

Section BlockMatrix.
Context (n : nat) (k : Z) (c : nat -> nat -> Z).

Let C : mat := mk_mat n n c.
Let S : mat := block_matrix n (U n k) (transpose_mat (C_bar C)) (C_bar C) (U n k).

Lemma block_matrix_symmetric (i j : nat) : entry S i j = entry S j i.
Proof.
  rewrite /S /C /block_matrix !entry_mk_mat.
  destruct (bool_decide (i < n + n)%nat) eqn:Hi,
           (bool_decide (j < n + n)%nat) eqn:Hj; simpl; try done.
  apply bool_decide_eq_true in Hi, Hj. f_equal. block_cases.
Qed.

Lemma block_matrix_diagonal (i : nat) :
  (i < 2 * n)%nat -> entry S i i = Some 0.
Proof.
  intros Hi. rewrite /S /C /block_matrix entry_mk_mat.
  rewrite (bool_decide_eq_true_2 (i < n + n)%nat); [lia|].
  simpl. f_equal. block_cases.
Qed.

Lemma block_matrix_quadrants :
  block S 0 0 n n = U n k ∧
  block S 0 n n n = transpose_mat (C_bar C) ∧
  block S n 0 n n = C_bar C ∧
  block S n n n n = U n k.
Proof.
  rewrite /S /C /block /block_matrix C_bar_mk_mat /U transpose_mk_mat.
  split_and!; apply mk_mat_ext; intros i j Hi Hj.
  all: rewrite get_mk_mat; [lia..|]; block_cases.
  all: repeat f_equal; lia.
Qed.

End BlockMatrix.

(** [mat_max] is the maximum: an element of the matrix that bounds them
    all. *)
Lemma foldl_max_spec (l : list Z) (a : Z) :
  (foldl Z.max a l = a ∨ foldl Z.max a l ∈ l) ∧
  a <= foldl Z.max a l ∧ forall y, y ∈ l -> y <= foldl Z.max a l.
Proof.
  revert a. induction l as [|x l IH]; intros a; simpl.
  { split_and!; [by left|lia|]. by intros y ?%elem_of_nil. }
  destruct (IH (Z.max a x)) as (Hin & Hle & Hub). split_and!.
  - destruct Hin as [Heq|Hin]; [|right; by right].
    rewrite Heq. destruct (Z.max_spec a x) as [[_ ->]|[_ ->]]; [right; left|by left].
  - lia.
  - intros y [->|Hy]%elem_of_cons; [lia|by apply Hub].
Qed.

Lemma mat_max_spec (m : mat) (mx : Z) :
  mat_max m = Some mx ->
  mx ∈ concat (rows m) ∧ forall i j x, entry m i j = Some x -> x <= mx.
Proof.
  rewrite /mat_max /entry. destruct (concat (rows m)) as [|a l] eqn:Hrows; [done|].
  intros [= <-]. destruct (foldl_max_spec l a) as (Hin & Hle & Hub). split.
  - destruct Hin as [->|Hin]; [left|by right].
  - intros i j x Hx.
    destruct (rows m !! i) as [r|] eqn:Hr; [|done]. simpl in Hx.
    assert (x ∈ a :: l) as [->|Hxl]%elem_of_cons; [|done|by apply Hub].
    rewrite -Hrows. apply list_elem_of_In, in_concat. exists r.
    split; apply list_elem_of_In; by eapply list_elem_of_lookup_2.
Qed.

(** C1 fails as it is stated: a constant k that does not fit a signed
    64-bit integer is refused when it meets the int64 array of ones, and
    the call raises OverflowError instead of returning a matrix.  Here k is
    2^64, which is greater than twice every element of C. *)
Lemma symmetricize_k_overflow :
  let C := Mat (2, 2)%nat [[7; 1]; [5; 9]] in
  let r := symmetricize (NdArray 0%nat false) (Some (2 ^ 64)) [C] in
  2 * 9 < 2 ^ 64 ∧ mat_max C = Some 9 ∧ r.1 = Raise OverflowError.
Proof. by vm_compute. Qed.

(** C1, amended: for a square n-by-n matrix C and a constant k that fits a
    signed 64-bit integer (and is greater than twice every element of C,
    as the claim has it; that bound is not used), the call succeeds and
    returns a new 2n-by-2n matrix S that is symmetric, whose quadrants
    are, from the top left, U, the transpose of C-bar, C-bar and U, where
    C-bar is C with a zero diagonal and U has 0 on the diagonal and k
    elsewhere, and whose diagonal is zero. *)
Theorem symmetricize_block_matrix (h : heap) (matrix : ndarray) (C : mat)
    (n : nat) (k : Z) :
  view h matrix = Some C -> mat_wf C -> shape C = (n, n) ->
  (forall i j x, entry C i j = Some x -> 2 * x < k) ->
  int64 k = true ->
  exists s h' S,
    symmetricize matrix (Some k) h = (Ok s, h') ∧
    view h' s = Some S ∧
    shape S = (2 * n, 2 * n)%nat ∧ mat_wf S ∧
    (forall i j, entry S i j = entry S j i) ∧
    block S 0 0 n n = U n k ∧
    block S 0 n n n = transpose_mat (C_bar C) ∧
    block S n 0 n n = C_bar C ∧
    block S n n n n = U n k ∧
    (forall i, (i < 2 * n)%nat -> entry S i i = Some 0).
Proof.
  intros Hview Hwf Hshape _ Hk.
  destruct (symmetricize_run h matrix C n k Hview Hwf Hshape Hk)
    as (h' & Hrun & HS).
  eexists _, _, _. split; [exact Hrun|].
  pose proof (mat_eta C Hwf) as HC. rewrite Hshape /= in HC.
  split; [by rewrite view_app_r /view /= HS|]. rewrite HC.
  split; [rewrite /block_matrix /=; do 2 f_equal; lia|].
  split; [apply mk_mat_wf|].
  split; [apply block_matrix_symmetric|].
  destruct (block_matrix_quadrants n k (get C)) as (? & ? & ? & ?).
  split_and!; try done. apply block_matrix_diagonal.
Qed.

Lemma symmetricize_block_matrix_witness :
  exists s h' S,
    symmetricize (NdArray 0%nat false) (Some 100)
                 [Mat (2, 2)%nat [[7; 1]; [5; 9]]] = (Ok s, h') ∧
    view h' s = Some S ∧ shape S = (4, 4)%nat.
Proof.
  destruct (symmetricize_block_matrix [Mat (2, 2)%nat [[7; 1]; [5; 9]]]
              (NdArray 0%nat false) (Mat (2, 2)%nat [[7; 1]; [5; 9]]) 2 100)
    as (s & h' & S & Hrun & Hview & Hshape & _).
  - reflexivity.
  - split; [reflexivity|]. repeat constructor.
  - reflexivity.
  - intros [|[|i]] [|[|j]] x; simpl; intros [= <-]; lia.
  - reflexivity.
  - by exists s, h', S.
Defined.

Lemma symmetricize_default_run (h : heap) (matrix : ndarray) (C : mat)
    (mx : Z) :
  view h matrix = Some C -> mat_max C = Some mx ->
  symmetricize matrix None h =
  symmetricize matrix (Some (round (wrap64 (10 * mx)))) h.
Proof.
  intros Hview Hmax. rewrite /symmetricize.
  erewrite M_bind_ok; [|erewrite M_bind_ok; [reflexivity|]].
  - by erewrite (M_bind_ok (mret _)).
  - rewrite /ndarray_max. erewrite M_bind_ok; [|by rewrite /read Hview].
    by rewrite Hmax.
Qed.




(** C10: the call never writes its argument.  Whatever the store, the
    argument and k, and whether the call returns or raises, every buffer
    that existed before the call holds after it what it held before; so the
    matrix seen through the argument is unchanged, its diagonal included. *)
Theorem symmetricize_frame (h : heap) (matrix : ndarray) (k : option Z) :
  h `prefix_of` (symmetricize matrix k h).2 ∧
  view (symmetricize matrix k h).2 matrix = view h matrix ∧
  (forall a C, view h a = Some C ->
     view (symmetricize matrix k h).2 a = Some C).
Proof.
  destruct (preserves_symmetricize h matrix k h) as [[l Hl] _]; [done|].
  assert (forall a C, view h a = Some C ->
            view (symmetricize matrix k h).2 a = Some C) as Hframe.
  { intros a C Ha. rewrite Hl. by apply view_app_l. }
  split_and!; [by exists l| |done].
  destruct (view h matrix) as [C|] eqn:Hview; [by apply Hframe|].
  assert ((symmetricize matrix k h).2 = h) as ->; [|done].
  rewrite /symmetricize /mbind /M_bind /mret /M_ret.
  destruct k; rewrite /ndarray_copy /ndarray_max /mbind /M_bind /read Hview //.
Qed.

(** The same on an instance: a matrix with a non-zero diagonal is still
    what it was after the call, while the result has a zero diagonal. *)
Example symmetricize_keeps_argument :
  let h := [Mat (2, 2)%nat [[7; 1]; [5; 9]]] in
  let r := symmetricize (NdArray 0%nat false) None h in
  view r.2 (NdArray 0%nat false) = Some (Mat (2, 2)%nat [[7; 1]; [5; 9]]) ∧
  view r.2 (NdArray 8%nat false) =
    Some (Mat (4, 4)%nat [[0; 90; 0; 5]; [90; 0; 1; 0];
                          [0; 1; 0; 90]; [5; 0; 90; 0]]).
Proof. by vm_compute. Qed.

(** * Further properties of the code *)

(** ** Tokens and node lines *)

Lemma split_cons (c : ascii) (s : string) :
  split (String c s) =
  if isspace c then split s
  else match s with
       | EmptyString => [String c ""]
       | String d _ =>
           if isspace d then String c "" :: split s
           else match split s with
                | tok :: toks => String c tok :: toks
                | [] => [String c ""]
                end
       end.
Proof. done. Qed.

Lemma split_token (tok rest : string) (w : ascii) :
  tok ≠ "" -> no_space tok = true -> isspace w = true ->
  split (tok +:+ String w rest) = tok :: split rest.
Proof.
  intros Htok Hns Hw. induction tok as [|c tok IH]; [done|].
  move: Hns. rewrite /= andb_true_iff negb_true_iff. intros [Hc Hns].
  rewrite Hc. destruct tok as [|d tok].
  - change ("" +:+ String w rest) with (String w rest). by rewrite /= !Hw.
  - assert (isspace d = false) as Hd.
    { move: Hns. rewrite /= andb_true_iff negb_true_iff. by intros [? _]. }
    by rewrite IH // append_cons Hd.
Qed.

Lemma no_space_app (s1 s2 : string) :
  no_space (s1 +:+ s2) = no_space s1 && no_space s2.
Proof.
  induction s1 as [|c s1 IH]; [done|].
  by rewrite append_cons /= IH andb_assoc.
Qed.

Lemma str_int_token (n : Z) : str_int n ≠ "" ∧ no_space (str_int n) = true.
Proof.
  assert (forall d, no_space (NilEmpty.string_of_uint d) = true) as Hne.
  { induction d; simpl; by rewrite ?IHd. }
  rewrite /str_int. destruct (Z.to_int n) as [d|d]; simpl.
  - destruct d; simpl; by rewrite ?Hne.
  - split; [done|]. destruct d; simpl; by rewrite ?Hne.
Qed.

Lemma plain_line_str_int (n : Z) (rest : string) :
  plain_line (str_int n +:+ rest) = true.
Proof.
  rewrite /str_int. destruct (Z.to_int n) as [d|d]; simpl; [|done].
  by destruct d.
Qed.

Lemma ints_of_node (n : Z) : ints_of (str_int n +:+ nl) = Ok [n].
Proof.
  destruct (str_int_token n) as [Hne Hns].
  by rewrite /ints_of /nl split_token //= int_str_int.
Qed.

Lemma scan_lines_nodes (tour acc : list Z) (rest : list string) :
  scan_lines (((fun node => str_int node +:+ nl) <$> tour) ++ rest) true acc =
  scan_lines rest true (acc ++ tour).
Proof.
  revert acc. induction tour as [|n tour IH]; intros acc.
  { by rewrite /= app_nil_r. }
  rewrite fmap_cons -app_comm_cons [scan_lines _ _ _]/=.
  move: (plain_line_str_int n nl).
  rewrite /plain_line andb_true_iff !negb_true_iff. intros [-> ->].
  by rewrite ints_of_node /= IH -app_assoc.
Qed.

(** X1: a tour file made of the TOUR_SECTION header, one node per line, the
    closing -1 and the EOF line reads back as the tour it was made from,
    for every tour of integers that fit 64 bits, which the returned array
    holds exactly (the empty tour included). *)
Theorem read_tsp_tour_tour_file (fname : string) (tour : list Z) :
  forallb int64 tour = true ->
  read_tsp_tour (one_file fname (tour_file tour)) fname = Ok tour.
Proof.
  intros _. rewrite /read_tsp_tour /one_file bool_decide_eq_true_2 // /tour_file.
  rewrite readlines_concat.
  { rewrite Forall_cons Forall_app Forall_fmap !Forall_cons Forall_nil.
    split_and!; try done.
    - by exists "TOUR_SECTION".
    - apply Forall_forall. intros n _. exists (str_int n).
      by rewrite no_linebreak_str_int.
    - by exists "-1".
    - by exists "EOF". }
  rewrite [scan_lines _ _ _]/=.
  assert (((fun node => str_int node +:+ nl) <$> tour)
            ++ ["-1" +:+ nl; "EOF" +:+ nl] =
          ((fun node => str_int node +:+ nl) <$> tour ++ [-1])
            ++ ["EOF" +:+ nl]) as ->.
  { by rewrite fmap_app -app_assoc. }
  rewrite scan_lines_nodes /= bool_decide_eq_false_2; [by destruct tour|].
  rewrite /strip_sentinel last_snoc removelast_last.
  by rewrite bool_decide_eq_true_2.
Qed.

Lemma read_tsp_tour_tour_file_witness :
  read_tsp_tour (one_file "t.sol" (tour_file [3; 1; 2; -1])) "t.sol" =
  Ok [3; 1; 2; -1].
Proof.
  apply (read_tsp_tour_tour_file "t.sol" [3; 1; 2; -1]). reflexivity.
Defined.

(** X2: scanning is compositional.  When no line of a first block starts
    with EOF, scanning the block followed by more lines is scanning the
    block and then the other lines, with collection on if it was on before
    or the block holds a TOUR_SECTION line; so the nodes of several tour
    sections add up, and collection, once on, stays on. *)
Theorem scan_lines_app (l1 l2 : list string) (has_tour : bool)
    (tour : list Z) :
  forallb (fun line => negb (startswith line "EOF")) l1 = true ->
  scan_lines (l1 ++ l2) has_tour tour =
  (tour1 ← scan_lines l1 has_tour tour;
   scan_lines l2 (has_tour || has_header l1) tour1).
Proof.
  revert has_tour tour.
  induction l1 as [|line l1 IH]; intros has_tour tour; simpl.
  { by rewrite orb_false_r. }
  rewrite andb_true_iff negb_true_iff. intros [Heof Hl1]. rewrite Heof.
  destruct (startswith line "TOUR_SECTION"); simpl.
  { by rewrite IH // orb_true_r. }
  destruct has_tour; [|by apply IH].
  destruct (ints_of line) as [nodes|e]; simpl; [by apply IH|done].
Qed.

Lemma scan_lines_app_witness :
  scan_lines (["TOUR_SECTION"; "1 2"] ++ ["TOUR_SECTION"; "3"]) false [] =
  (tour1 ← scan_lines ["TOUR_SECTION"; "1 2"] false [];
   scan_lines ["TOUR_SECTION"; "3"]
              (false || has_header ["TOUR_SECTION"; "1 2"]) tour1).
Proof.
  apply (scan_lines_app ["TOUR_SECTION"; "1 2"] ["TOUR_SECTION"; "3"]).
  reflexivity.
Defined.

(** ** The written file, read back *)

(** The text [write_tsp_file] leaves in an empty sink reads back, line by
    line, as the lines it wrote. *)
Lemma readlines_written {coord} (format_coord : coord -> string)
    (xs ys : list coord) (norm name : string) :
  length xs = length ys ->
  norm ∈ EDGE_WEIGHT_TYPES ->
  no_linebreak name = true ->
  forallb (fun x => no_linebreak (format_coord x)) (xs ++ ys) = true ->
  readlines (write_tsp_file format_coord xs ys norm name "").2 =
  tsp_lines format_coord xs ys norm name.
Proof.
  intros Hlen Hnorm Hname Hfmt. rewrite write_tsp_file_run //.
  change (_, "" +:+ ?s).2 with s.
  by rewrite readlines_concat; [apply tsp_lines_are_lines|].
Qed.

(** X3: an instance file is not a tour file.  Reading back with
    [read_tsp_tour] what [write_tsp_file] wrote for a valid instance (name
    and formatted coordinates without line break) raises the RuntimeError
    of a file without tour: no written line starts with TOUR_SECTION, and
    the scan stops at the EOF line. *)
Theorem read_tsp_tour_of_instance {coord} (format_coord : coord -> string)
    (xs ys : list coord) (norm name fname : string) :
  length xs = length ys ->
  norm ∈ EDGE_WEIGHT_TYPES ->
  no_linebreak name = true ->
  forallb (fun x => no_linebreak (format_coord x)) (xs ++ ys) = true ->
  read_tsp_tour
    (one_file fname (write_tsp_file format_coord xs ys norm name "").2)
    fname = Raise RuntimeError.
Proof.
  intros Hlen Hnorm Hname Hfmt.
  rewrite /read_tsp_tour /one_file bool_decide_eq_true_2 //.
  rewrite readlines_written // /tsp_lines app_assoc.
  rewrite scan_lines_eof_first //.
  rewrite forallb_app andb_true_iff. split; [done|].
  apply forallb_forall. intros line Hline%list_elem_of_In.
  apply list_elem_of_lookup in Hline as [i Hline].
  rewrite list_lookup_imap in Hline.
  apply fmap_Some in Hline as ([x y] & _ & ->). cbn [fst snd].
  move: (plain_line_str_int (Z.of_nat i + 1)
           (" " +:+ format_coord x +:+ " " +:+ format_coord y +:+ nl)).
  rewrite /plain_line /point_line andb_true_iff. by intros [-> _].
Qed.

Lemma read_tsp_tour_of_instance_witness :
  read_tsp_tour
    (one_file "a.tsp" (write_tsp_file str_int [0; 3] [0; 4] "EUC_2D" "pair" "").2)
    "a.tsp" = Raise RuntimeError.
Proof.
  apply (read_tsp_tour_of_instance str_int [0; 3] [0; 4] "EUC_2D" "pair").
  - reflexivity.
  - by vm_compute.
  - reflexivity.
  - reflexivity.
Defined.

(** X4: integer coordinates survive the file.  For a valid instance with
    integer coordinates, line 5 + i of the written text (counted from 0),
    split on whitespace and read as integers the way the tour reader reads
    a line, gives the 1-based index of point i and its two coordinates. *)
Theorem written_point_parses_back (xs ys : list Z) (norm name : string)
    (i : nat) (x y : Z) :
  length xs = length ys ->
  norm ∈ EDGE_WEIGHT_TYPES ->
  no_linebreak name = true ->
  xs !! i = Some x -> ys !! i = Some y ->
  exists line,
    readlines (write_tsp_file str_int xs ys norm name "").2 !! (5 + i)%nat
      = Some line ∧
    ints_of line = Ok [Z.of_nat i + 1; x; y].
Proof.
  intros Hlen Hnorm Hname Hx Hy.
  rewrite readlines_written //.
  { apply forallb_forall. intros z _. apply no_linebreak_str_int. }
  exists (point_line i (str_int x) (str_int y)). split.
  - rewrite /tsp_lines lookup_app_r /=; [lia|]. rewrite Nat.sub_0_r.
    rewrite lookup_app_l.
    { rewrite length_imap length_zip_with.
      apply lookup_lt_Some in Hx, Hy. lia. }
    rewrite list_lookup_imap /zip.
    by rewrite (proj2 (lookup_zip_with_Some pair xs ys i (x, y)));
      [exists x, y|].
  - destruct (str_int_token (Z.of_nat i + 1)) as [? ?].
    destruct (str_int_token x) as [? ?], (str_int_token y) as [? ?].
    rewrite /ints_of /point_line.
    rewrite (split_token _ _ " ") // (split_token _ _ " ") //.
    rewrite (split_token _ "" LF) //=.
    by rewrite !int_str_int.
Qed.

Lemma written_point_parses_back_witness :
  exists line,
    readlines (write_tsp_file str_int [0; 3] [0; -4] "EUC_2D" "pair" "").2
      !! (5 + 1)%nat = Some line ∧
    ints_of line = Ok [Z.of_nat 1 + 1; 3; -4].
Proof.
  apply (written_point_parses_back [0; 3] [0; -4] "EUC_2D" "pair" 1 3 (-4)).
  - reflexivity.
  - by vm_compute.
  - reflexivity.
  - reflexivity.
  - reflexivity.
Defined.

(** ** The symmetricization: edge cases *)

Lemma length_concat_rows (rs : list (list Z)) (c : nat) :
  Forall (fun r => length r = c) rs ->
  length (concat rs) = (length rs * c)%nat.
Proof.
  induction 1 as [|r rs Hr _ IH]; [done|].
  by rewrite /= length_app IH Hr.
Qed.

Lemma mat_max_None (m : mat) :
  mat_wf m ->
  mat_max m = None <-> ((shape m).1 * (shape m).2)%nat = 0%nat.
Proof.
  intros [Hrows Hcols]. rewrite -Hrows -(length_concat_rows _ _ Hcols).
  rewrite /mat_max. by destruct (concat (rows m)).
Qed.

Lemma symmetricize_max_raises (h : heap) (matrix : ndarray) (C : mat) :
  view h matrix = Some C -> mat_max C = None ->
  symmetricize matrix None h = (Raise ValueError, h).
Proof.
  intros Hview Hmax. rewrite /symmetricize.
  erewrite M_bind_raise; [done|]. erewrite M_bind_raise; [done|].
  rewrite /ndarray_max. erewrite M_bind_ok; [|by rewrite /read Hview].
  by rewrite Hmax.
Qed.

Lemma concat_columns_mismatch (r1 r2 c1 c2 : nat) (f g : nat -> nat -> Z) :
  r1 ≠ r2 -> concat_mat 1 (mk_mat r1 c1 f) (mk_mat r2 c2 g) = None.
Proof. intros Hr. by rewrite /concat_mat /= bool_decide_eq_false_2. Qed.

Lemma np_concatenate_raises (h l : heap) (a b : ndarray) (axis : nat)
    (ma mb : mat) :
  view (h ++ l) a = Some ma -> view (h ++ l) b = Some mb ->
  concat_mat axis ma mb = None ->
  np_concatenate a b axis (h ++ l) = (Raise ValueError, h ++ l).
Proof.
  intros Ha Hb Hm. rewrite /np_concatenate.
  rewrite (M_bind_ok _ _ _ _ _ (read_run h l a ma Ha)).
  by rewrite (M_bind_ok _ _ _ _ _ (read_run h l b mb Hb)) Hm.
Qed.

(** With [k] given, a matrix that is not square gets as far as the first
    concatenation, which refuses the shapes. *)
Lemma symmetricize_not_square_run (h : heap) (matrix : ndarray) (C : mat)
    (k : Z) :
  view h matrix = Some C -> mat_wf C -> (shape C).1 ≠ (shape C).2 ->
  int64 k = true ->
  exists h', symmetricize matrix (Some k) h = (Raise ValueError, h ++ h').
Proof.
  intros Hview Hwf Hshape Hk.
  pose proof (mat_eta C Hwf) as HC.
  destruct (shape C) as [r c] eqn:HrC. simpl in *.
  set (f := get C) in HC. clearbody f. subst C. clear Hwf HrC.
  eexists. rewrite -{1}(app_nil_r h) /symmetricize.
  run_step ltac:(reflexivity).
  run_step ltac:(apply ndarray_copy_run; view_here).
  run_step ltac:(by apply np_fill_diagonal_run).
  run_step ltac:(apply ndarray_shape_run; view_here).
  run_step ltac:(apply alloc_run).
  run_step ltac:(apply ndarray_copy_run; view_here).
  run_step ltac:(apply ndarray_mul_run; [done|view_here]).
  run_step ltac:(apply ndarray_copy_run; view_here).
  run_step ltac:(by apply np_fill_diagonal_run).
  erewrite M_bind_raise; [reflexivity|].
  eapply np_concatenate_raises;
    [view_here|view_here|by apply concat_columns_mismatch].
Qed.

(** A constant that does not fit 64 bits stops the call at the product
    with the array of ones, whatever the matrix. *)
Lemma symmetricize_overflow_run (h : heap) (matrix : ndarray) (C : mat)
    (k : Z) :
  view h matrix = Some C -> int64 k = false ->
  exists h', symmetricize matrix (Some k) h = (Raise OverflowError, h ++ h').
Proof.
  intros Hview Hk.
  eexists. rewrite -{1}(app_nil_r h) /symmetricize.
  run_step ltac:(reflexivity).
  run_step ltac:(apply ndarray_copy_run; view_here).
  run_step ltac:(by apply np_fill_diagonal_run).
  run_step ltac:(apply ndarray_shape_run; view_here).
  run_step ltac:(apply alloc_run).
  run_step ltac:(apply ndarray_copy_run; view_here).
  erewrite M_bind_raise; [reflexivity|].
  by apply ndarray_mul_overflow.
Qed.

(** X5: a matrix that is not square is refused.  On a well-formed r-by-c
    matrix of 64-bit integers with r different from c the call raises
    ValueError when k is not given or fits a signed 64-bit integer (from
    the concatenation of u and the transposed copy, or before that from
    the maximum of an empty matrix), and OverflowError when k is given and
    does not fit; it never returns. *)
Theorem symmetricize_not_square (h : heap) (matrix : ndarray) (C : mat)
    (k : option Z) :
  view h matrix = Some C -> mat_wf C -> mat_int64 C = true ->
  (shape C).1 ≠ (shape C).2 ->
  (symmetricize matrix k h).1 =
  Raise (match k with
         | Some k' => if int64 k' then ValueError else OverflowError
         | None => ValueError
         end).
Proof.
  intros Hview Hwf _ Hshape. destruct k as [k|].
  - destruct (int64 k) eqn:Hk.
    + by destruct (symmetricize_not_square_run h matrix C k) as [h' ->].
    + by destruct (symmetricize_overflow_run h matrix C k) as [h' ->].
  - destruct (mat_max C) as [mx|] eqn:Hmax.
    + rewrite (symmetricize_default_run h matrix C mx) //.
      by destruct (symmetricize_not_square_run h matrix C
                     (round (wrap64 (10 * mx))) Hview Hwf Hshape
                     (wrap64_int64 _)) as [h' ->].
    + by rewrite (symmetricize_max_raises h matrix C).
Qed.

Lemma symmetricize_not_square_witness :
  (symmetricize (NdArray 0%nat false) (Some 100)
                [Mat (2, 3)%nat [[7; 1; 1]; [5; 9; 1]]]).1 = Raise ValueError.
Proof.
  apply (symmetricize_not_square [Mat (2, 3)%nat [[7; 1; 1]; [5; 9; 1]]]
           (NdArray 0%nat false) (Mat (2, 3)%nat [[7; 1; 1]; [5; 9; 1]])
           (Some 100)).
  - reflexivity.
  - split; [reflexivity|]. repeat constructor.
  - reflexivity.
  - simpl. lia.
Defined.

(** X6: without k, a matrix that has no element is refused before
    anything is allocated: the maximum of an empty array raises
    ValueError and the store is what it was.  With a k that fits a signed
    64-bit integer, the 0-by-0 matrix is accepted and gives a 0-by-0
    result. *)
Theorem symmetricize_empty (h : heap) (matrix : ndarray) (C : mat) :
  view h matrix = Some C -> mat_wf C ->
  ((shape C).1 * (shape C).2)%nat = 0%nat ->
  symmetricize matrix None h = (Raise ValueError, h) ∧
  (forall k, int64 k = true -> shape C = (0, 0)%nat ->
     exists s h', symmetricize matrix (Some k) h = (Ok s, h') ∧
       view h' s = Some (Mat (0, 0)%nat [])).
Proof.
  intros Hview Hwf Hsize. split.
  - apply (symmetricize_max_raises h matrix C Hview).
    by apply mat_max_None.
  - intros k Hk Hshape.
    destruct (symmetricize_run h matrix C 0 k Hview Hwf Hshape Hk)
      as (h' & Hrun & HS).
    eexists _, _. split; [exact Hrun|].
    by rewrite view_app_r /view /= HS.
Qed.

Lemma symmetricize_empty_witness :
  symmetricize (NdArray 0%nat false) None [Mat (0, 3)%nat []] =
  (Raise ValueError, [Mat (0, 3)%nat []]).
Proof.
  refine (proj1 (symmetricize_empty [Mat (0, 3)%nat []] (NdArray 0%nat false)
                   (Mat (0, 3)%nat []) _ _ _)).
  - reflexivity.
  - split; [reflexivity|]. constructor.
  - reflexivity.
Defined.

(** ** The symmetricization: what the result is made of *)

Lemma C_bar_off_diagonal (C C' : mat) (n : nat) :
  mat_wf C -> mat_wf C' -> shape C = (n, n) -> shape C' = (n, n) ->
  (forall i j, i ≠ j -> entry C i j = entry C' i j) ->
  C_bar C = C_bar C'.
Proof.
  intros _ _ HC HC' Hoff. rewrite /C_bar HC HC' /=.
  apply mk_mat_ext. intros i j _ _. case_bool_decide; [done|].
  by rewrite /get Hoff.
Qed.

(** X7: with a k that fits a signed 64-bit integer, the diagonal of the
    cost matrix has no part in the result: two square matrices of the same
    size that agree off the diagonal are turned into the same symmetric
    matrix. *)
Theorem symmetricize_ignores_diagonal (h : heap) (a b : ndarray)
    (C C' : mat) (n : nat) (k : Z) :
  view h a = Some C -> view h b = Some C' ->
  mat_wf C -> mat_wf C' -> shape C = (n, n) -> shape C' = (n, n) ->
  (forall i j, i ≠ j -> entry C i j = entry C' i j) ->
  int64 k = true ->
  exists S sa ha sb hb,
    symmetricize a (Some k) h = (Ok sa, ha) ∧ view ha sa = Some S ∧
    symmetricize b (Some k) h = (Ok sb, hb) ∧ view hb sb = Some S.
Proof.
  intros Ha Hb Hwf Hwf' Hshape Hshape' Hoff Hk.
  destruct (symmetricize_run h a C n k Ha Hwf Hshape Hk)
    as (ha & Hruna & HSa).
  destruct (symmetricize_run h b C' n k Hb Hwf' Hshape' Hk)
    as (hb & Hrunb & HSb).
  rewrite -(C_bar_off_diagonal C C' n) // in HSb.
  eexists _, _, _, _, _. split; [exact Hruna|].
  split; [by rewrite view_app_r /view /= HSa|].
  split; [exact Hrunb|]. by rewrite view_app_r /view /= HSb.
Qed.

Lemma symmetricize_ignores_diagonal_witness :
  exists S sa ha sb hb,
    symmetricize (NdArray 0%nat false) (Some 100)
      [Mat (2, 2)%nat [[7; 1]; [5; 9]]; Mat (2, 2)%nat [[0; 1]; [5; 0]]]
      = (Ok sa, ha) ∧ view ha sa = Some S ∧
    symmetricize (NdArray 1%nat false) (Some 100)
      [Mat (2, 2)%nat [[7; 1]; [5; 9]]; Mat (2, 2)%nat [[0; 1]; [5; 0]]]
      = (Ok sb, hb) ∧ view hb sb = Some S.
Proof.
  apply (symmetricize_ignores_diagonal
           [Mat (2, 2)%nat [[7; 1]; [5; 9]]; Mat (2, 2)%nat [[0; 1]; [5; 0]]]
           (NdArray 0%nat false) (NdArray 1%nat false)
           (Mat (2, 2)%nat [[7; 1]; [5; 9]]) (Mat (2, 2)%nat [[0; 1]; [5; 0]])
           2%nat 100).
  - reflexivity.
  - reflexivity.
  - split; [reflexivity|]. repeat constructor.
  - split; [reflexivity|]. repeat constructor.
  - reflexivity.
  - reflexivity.
  - intros [|[|i]] [|[|j]] Hij; try reflexivity; by destruct Hij.
  - reflexivity.
Defined.

(** Without k the diagonal does count, through the maximum: the largest
    element here is on the diagonal and sets k to 90, not to 50. *)
Example symmetricize_default_k_sees_diagonal :
  let r := symmetricize (NdArray 0%nat false) None
             [Mat (2, 2)%nat [[7; 1]; [5; 9]]] in
  (fun S => entry S 0 1) <$> view r.2 (NdArray 8%nat false) = Some (Some 90).
Proof. by vm_compute. Qed.

Lemma path_cost_cons (m : mat) (a b : nat) (q : list nat) :
  path_cost m (a :: b :: q) = get m a b + path_cost m (b :: q).
Proof. done. Qed.

Section PathCost.
Context (n : nat) (k : Z) (c : nat -> nat -> Z).

Let C : mat := mk_mat n n c.
Let S : mat :=
  block_matrix n (U n k) (transpose_mat (C_bar C)) (C_bar C) (U n k).

Lemma block_matrix_ghost_edge (i : nat) :
  (i < n)%nat -> get S i (n + i) = 0.
Proof.
  intros Hi. rewrite /S /C /block_matrix get_mk_mat; [lia..|].
  block_cases.
Qed.

Lemma block_matrix_real_edge (i j : nat) :
  (i < n)%nat -> (j < n)%nat -> i ≠ j -> get S (n + i) j = get C i j.
Proof.
  intros Hi Hj Hij. rewrite /S /C /block_matrix get_mk_mat; [lia..|].
  rewrite (get_mk_mat n n c i j) //.
  block_cases. by replace (n + i - n)%nat with i by lia.
Qed.

Lemma block_matrix_path_cost (p : list nat) :
  Forall (fun i => (i < n)%nat) p -> no_self_loop p = true ->
  path_cost S (doubled n p) = path_cost C p.
Proof.
  induction p as [|a p IH]; [done|].
  rewrite Forall_cons. intros [Ha Hp] Hloop.
  destruct p as [|b q].
  { change (doubled n [a]) with [a; (n + a)%nat].
    by rewrite path_cost_cons block_matrix_ghost_edge. }
  move: Hloop. rewrite [no_self_loop _]/= andb_true_iff negb_true_iff.
  intros [Hab%Nat.eqb_neq Hloop].
  pose proof (Forall_inv Hp) as Hb. specialize (IH Hp Hloop).
  change (doubled n (a :: b :: q))
    with (a :: (n + a)%nat :: doubled n (b :: q)).
  change (doubled n (b :: q)) with (b :: (n + b)%nat :: doubled n q) in *.
  rewrite (path_cost_cons S a) (path_cost_cons S (n + a)).
  rewrite (path_cost_cons C a) -IH.
  by rewrite block_matrix_ghost_edge // block_matrix_real_edge.
Qed.

End PathCost.

(** X8: costs carry over to the doubled instance.  In the matrix S the
    call returns for a square matrix C, the path that follows every node i
    of a path p by its ghost node n + i costs exactly what p costs in C,
    provided the nodes of p are nodes of C and no two consecutive ones are
    the same; the constant k, which must fit a signed 64-bit integer for
    the call to return, has no part in it. *)
Theorem symmetricize_path_cost (h : heap) (matrix : ndarray) (C : mat)
    (n : nat) (k : Z) (p : list nat) :
  view h matrix = Some C -> mat_wf C -> shape C = (n, n) ->
  int64 k = true ->
  Forall (fun i => (i < n)%nat) p -> no_self_loop p = true ->
  exists s h' S,
    symmetricize matrix (Some k) h = (Ok s, h') ∧
    view h' s = Some S ∧
    path_cost S (doubled n p) = path_cost C p.
Proof.
  intros Hview Hwf Hshape Hk Hp Hloop.
  destruct (symmetricize_run h matrix C n k Hview Hwf Hshape Hk)
    as (h' & Hrun & HS).
  eexists _, _, _. split; [exact Hrun|].
  split; [by rewrite view_app_r /view /= HS|].
  pose proof (mat_eta C Hwf) as HC. rewrite Hshape /= in HC.
  rewrite {1 2 3}HC (block_matrix_path_cost n k (get C) p Hp Hloop).
  by rewrite -HC.
Qed.

Lemma symmetricize_path_cost_witness :
  exists s h' S,
    symmetricize (NdArray 0%nat false) (Some 100)
      [Mat (3, 3)%nat [[7; 1; 2]; [5; 9; 3]; [4; 6; 8]]] = (Ok s, h') ∧
    view h' s = Some S ∧
    path_cost S (doubled 3 [0; 1; 2; 0]%nat) =
    path_cost (Mat (3, 3)%nat [[7; 1; 2]; [5; 9; 3]; [4; 6; 8]])
              [0; 1; 2; 0]%nat.
Proof.
  apply (symmetricize_path_cost
           [Mat (3, 3)%nat [[7; 1; 2]; [5; 9; 3]; [4; 6; 8]]]
           (NdArray 0%nat false)
           (Mat (3, 3)%nat [[7; 1; 2]; [5; 9; 3]; [4; 6; 8]]) 3%nat 100
           [0; 1; 2; 0]%nat).
  - reflexivity.
  - split; [reflexivity|]. repeat constructor.
  - reflexivity.
  - reflexivity.
  - repeat constructor.
  - reflexivity.
Defined.

(** X9: the result is a new array.  Whenever the call returns, the array
    it returns lives in a buffer allocated during the call: it is none of
    the buffers that existed before, in particular not the buffer of the
    argument, and those buffers are still what they were. *)
Theorem symmetricize_returns_fresh (h h' : heap) (matrix s : ndarray)
    (k : option Z) :
  symmetricize matrix k h = (Ok s, h') ->
  (length h <= base s)%nat ∧ (base matrix < length h)%nat ∧
  base s ≠ base matrix ∧ h `prefix_of` h'.
Proof.
  intros Hrun.
  destruct (preserves_symmetricize h matrix k h) as [Hpre Hfresh]; [done|].
  rewrite Hrun /= in Hpre Hfresh. specialize (Hfresh s eq_refl).
  assert (base matrix < length h)%nat as Hbase.
  { destruct (view h matrix) as [C|] eqn:Hview.
    - move: Hview. rewrite /view.
      destruct (h !! base matrix) as [m|] eqn:Hm; [|done].
      intros _. by eapply lookup_lt_Some.
    - exfalso. move: Hrun.
      rewrite /symmetricize /mbind /M_bind /mret /M_ret.
      destruct k;
        by rewrite /ndarray_copy /ndarray_max /mbind /M_bind /read Hview. }
  rewrite /fresh in Hfresh. split_and!; try done. lia.
Qed.

Lemma symmetricize_returns_fresh_witness :
  (length [Mat (1, 1)%nat [[4%Z]]] <= base (NdArray 8%nat false))%nat.
Proof.
  refine (proj1 (symmetricize_returns_fresh [Mat (1, 1)%nat [[4]]] _
                   (NdArray 0%nat false) (NdArray 8%nat false) (Some 9) _)).
  reflexivity.
Defined.

(** ** Line ends *)

Lemma universal_newlines_crlf (s : string) :
  no_cr s = true ->
  universal_newlines false (crlf s) = universal_newlines false s.
Proof.
  induction s as [|c s IH]; [done|].
  rewrite /= andb_true_iff negb_true_iff. intros [Hcr Hs]. rewrite Hcr.
  destruct (Ascii.eqb_spec c LF) as [->|Hlf].
  - by rewrite /= IH.
  - by rewrite /= Hcr andb_false_r IH.
Qed.

(** X10: the line ends of the tour file do not matter.  A file written with
    DOS line ends (carriage return, line feed) gives the same result, tour
    or exception, as the same file with plain line feeds. *)
Theorem read_tsp_tour_crlf (fname text : string) :
  no_cr text = true ->
  read_tsp_tour (one_file fname (crlf text)) fname =
  read_tsp_tour (one_file fname text) fname.
Proof.
  intros Hcr.
  rewrite /read_tsp_tour /one_file bool_decide_eq_true_2 // /readlines.
  by rewrite universal_newlines_crlf.
Qed.

Lemma read_tsp_tour_crlf_witness :
  read_tsp_tour (one_file "t.sol" (crlf (tour_file [2; 1; 3]))) "t.sol" =
  read_tsp_tour (one_file "t.sol" (tour_file [2; 1; 3])) "t.sol".
Proof.
  apply (read_tsp_tour_crlf "t.sol" (tour_file [2; 1; 3])).
  by vm_compute.
Defined.

(** ** The tour reader against the description of the specification *)

Lemma mapM_app_option {A B} (f : A -> option B) (l1 l2 : list A) :
  mapM f (l1 ++ l2) =
  (k1 ← mapM f l1; k2 ← mapM f l2; Some (k1 ++ k2)).
Proof.
  induction l1 as [|x l1 IH]; simpl.
  { by destruct (mapM f l2). }
  destruct (f x) as [y|]; simpl; [|done]. rewrite IH.
  destruct (mapM f l1) as [k1|]; simpl; [|done].
  by destruct (mapM f l2).
Qed.

Lemma header_not_eof (line : string) :
  startswith line "TOUR_SECTION" = true -> startswith line "EOF" = false.
Proof.
  intros Hts. destruct (startswith line "EOF") eqn:Heof; [|done].
  by rewrite (prefix_EOF_not_header _ Heof) in Hts.
Qed.

(** In collection mode the loop converts, in order, the tokens of the
    lines before the first EOF line, TOUR_SECTION lines left out. *)
Lemma scan_lines_collecting (lines : list string) (tour : list Z) :
  scan_lines lines true tour =
  match mapM int (concat (split <$>
          List.filter (fun line => negb (startswith line "TOUR_SECTION"))
                      (before_eof lines))) with
  | Some nodes => Ok (tour ++ nodes)
  | None => Raise ValueError
  end.
Proof.
  revert tour. induction lines as [|line rest IH]; intros tour.
  { by rewrite /= app_nil_r. }
  rewrite [scan_lines _ _ _]/= [before_eof _]/=.
  destruct (startswith line "TOUR_SECTION") eqn:Hts.
  { by rewrite (header_not_eof _ Hts) /= Hts /= IH. }
  destruct (startswith line "EOF") eqn:Heof.
  { by rewrite /= app_nil_r. }
  rewrite /= Hts /= mapM_app_option /ints_of.
  destruct (mapM int (split line)) as [nodes|]; simpl; [|done].
  rewrite IH. destruct (mapM int (concat _)) as [more|]; simpl; [|done].
  by rewrite app_assoc.
Qed.

(** From the start of the file the loop converts the tokens of
    [tour_tokens]. *)
Lemma scan_lines_tokens (lines : list string) (tour : list Z) :
  scan_lines lines false tour =
  match mapM int (tour_tokens lines) with
  | Some nodes => Ok (tour ++ nodes)
  | None => Raise ValueError
  end.
Proof.
  rewrite /tour_tokens /tour_lines.
  induction lines as [|line rest IH].
  { by rewrite /= app_nil_r. }
  rewrite [scan_lines _ _ _]/= [before_eof _]/=.
  destruct (startswith line "TOUR_SECTION") eqn:Hts.
  { by rewrite (header_not_eof _ Hts) /= Hts scan_lines_collecting. }
  destruct (startswith line "EOF") eqn:Heof.
  { by rewrite /= app_nil_r. }
  by rewrite /= Hts.
Qed.

(** The call on a file, by the tokens of its tour lines. *)
Lemma read_tsp_tour_tokens (fs : filesystem) (fname text : string) :
  fs fname = Some text ->
  read_tsp_tour fs fname =
  match mapM int (tour_tokens (readlines text)) with
  | None => Raise ValueError
  | Some [] => Raise RuntimeError
  | Some tour => Ok (strip_sentinel tour)
  end.
Proof.
  intros Hfile. rewrite /read_tsp_tour Hfile scan_lines_tokens.
  destruct (mapM int (tour_tokens (readlines text))) as [[|n tour]|]; done.
Qed.

Lemma split_no_space (tok : string) :
  tok ≠ "" -> no_space tok = true -> split tok = [tok].
Proof.
  intros Htok Hns. induction tok as [|c tok IH]; [done|].
  move: Hns. rewrite /= andb_true_iff negb_true_iff. intros [Hc Hns].
  rewrite Hc. destruct tok as [|d tok]; [done|].
  assert (isspace d = false) as Hd.
  { move: Hns. rewrite /= andb_true_iff negb_true_iff. by intros [? _]. }
  by rewrite IH // Hd.
Qed.

Lemma int_digits_rejects (s : string) (acc : Z) (b : bool) :
  has_char (fun c => negb (numeral_char c)) s = true ->
  int_digits acc b s = None.
Proof.
  revert acc b. induction s as [|c s IH]; intros acc b; [done|].
  rewrite /= /numeral_char. destruct (digit_of c) as [d|]; simpl.
  { apply IH. }
  destruct (Ascii.eqb c "_"); simpl; [|done].
  intros Hs. rewrite (IH _ _ Hs). by destruct b.
Qed.

Lemma int_unsigned (c : ascii) (s : string) :
  c ≠ "+"%char -> c ≠ "-"%char ->
  int (String c s) = int_digits 0 false (String c s).
Proof.
  intros Hplus Hminus.
  destruct c as [[] [] [] [] [] [] [] []]; try done.
Qed.

Lemma int_rejects (tok : string) :
  has_char (fun c => negb (numeral_char c)) tok = true -> int tok = None.
Proof.
  destruct tok as [|c s]; [done|]. intros Hbad.
  destruct (decide (c = "+"%char)) as [->|Hplus].
  { by rewrite /= (int_digits_rejects s). }
  destruct (decide (c = "-"%char)) as [->|Hminus].
  { by rewrite /= (int_digits_rejects s). }
  by rewrite int_unsigned // int_digits_rejects.
Qed.

(** C5: the reader scans the lines in file order.  A line that starts with
    TOUR_SECTION switches collection on, a line that starts with EOF ends
    the scan at once, and any other line adds its tokens to the tour when
    collection is on and nothing otherwise.  What the loop collects is
    pinned down without it: the tokens are those of the lines after the
    first TOUR_SECTION line and before the first EOF line, further
    TOUR_SECTION lines left out, in file order; a token is a maximal run
    of characters that are not whitespace; every token is converted, the
    decimal numeral of n to n, while a token with a character that cannot
    stand in a numeral fails the conversion.  The call returns the
    converted tokens, without a closing -1 (when they fit 64 bits, so that
    the array holds them exactly), raises ValueError when a conversion
    fails and the RuntimeError of a file without tour when there is no
    token.  In particular the lines before the first TOUR_SECTION line add
    nothing, what follows an EOF line is never looked at, and a file whose
    first EOF line comes before any TOUR_SECTION line gives that
    RuntimeError. *)
Theorem read_tsp_tour_scan :
  (forall line rest has_tour tour,
     startswith line "TOUR_SECTION" = true ->
     scan_lines (line :: rest) has_tour tour = scan_lines rest true tour) ∧
  (forall line rest has_tour tour,
     startswith line "EOF" = true ->
     scan_lines (line :: rest) has_tour tour = Ok tour) ∧
  (forall line rest tour,
     plain_line line = true ->
     scan_lines (line :: rest) true tour =
       (nodes ← ints_of line; scan_lines rest true (tour ++ nodes)) ∧
     scan_lines (line :: rest) false tour = scan_lines rest false tour) ∧
  (forall lines, scan_lines lines false [] = collected false lines) ∧
  (forall lines,
     scan_lines lines false [] =
     match mapM int (tour_tokens lines) with
     | Some tour => Ok tour
     | None => Raise ValueError
     end) ∧
  (forall (fs : filesystem) fname text,
     fs fname = Some text ->
     match mapM int (tour_tokens (readlines text)) with
     | None => read_tsp_tour fs fname = Raise ValueError
     | Some [] => read_tsp_tour fs fname = Raise RuntimeError
     | Some tour =>
         forallb int64 tour = true ->
         read_tsp_tour fs fname =
         Ok (if bool_decide (last tour = Some (-1)) then removelast tour
             else tour)
     end) ∧
  (split "" = [] ∧
   (forall w rest, isspace w = true -> split (String w rest) = split rest) ∧
   (forall tok, tok ≠ "" -> no_space tok = true -> split tok = [tok]) ∧
   (forall tok w rest,
      tok ≠ "" -> no_space tok = true -> isspace w = true ->
      split (tok +:+ String w rest) = tok :: split rest)) ∧
  ((forall n, int (str_int n) = Some n) ∧
   (forall tok,
      has_char (fun c => negb (numeral_char c)) tok = true ->
      int tok = None)) ∧
  (forall pre rest,
     forallb plain_line pre = true ->
     scan_lines (pre ++ rest) false [] = scan_lines rest false []) ∧
  (forall pre eof rest has_tour tour,
     startswith eof "EOF" = true ->
     scan_lines (pre ++ eof :: rest) has_tour tour =
     scan_lines (pre ++ [eof]) has_tour tour) ∧
  (forall (fs : filesystem) fname text pre eof rest,
     fs fname = Some text ->
     readlines text = pre ++ eof :: rest ->
     forallb (fun l => negb (startswith l "TOUR_SECTION")) pre = true ->
     startswith eof "EOF" = true ->
     read_tsp_tour fs fname = Raise RuntimeError).
Proof.
  split_and!.
  - intros line rest has_tour tour Hts. by rewrite /= Hts.
  - intros line rest has_tour tour Heof.
    by rewrite /= (prefix_EOF_not_header _ Heof) Heof.
  - intros line rest tour.
    rewrite /plain_line andb_true_iff !negb_true_iff /=.
    by intros [-> ->].
  - intros lines. rewrite scan_lines_collected.
    by destruct (collected false lines).
  - intros lines. by rewrite scan_lines_tokens.
  - intros fs fname text Hfile. rewrite (read_tsp_tour_tokens _ _ _ Hfile).
    by destruct (mapM int (tour_tokens (readlines text))) as [[|n tour]|].
  - done.
  - intros w rest Hw. by rewrite split_cons Hw.
  - apply split_no_space.
  - intros tok w rest. apply split_token.
  - apply int_str_int.
  - apply int_rejects.
  - intros pre rest Hpre. by apply scan_lines_plain_prefix.
  - intros pre eof rest has_tour tour Heof. by apply scan_lines_eof.
  - intros fs fname text pre eof rest Hfile Hlines Hpre Heof.
    by rewrite /read_tsp_tour Hfile Hlines scan_lines_eof_first.
Qed.



(** X11: a constant k that does not fit a signed 64-bit integer is refused
    whatever the matrix: the call raises OverflowError at the product with
    the array of ones, after the copy of the argument and before the
    matrix u exists. *)
Theorem symmetricize_overflow (h : heap) (matrix : ndarray) (C : mat)
    (k : Z) :
  view h matrix = Some C -> int64 k = false ->
  (symmetricize matrix (Some k) h).1 = Raise OverflowError.
Proof.
  intros Hview Hk.
  by destruct (symmetricize_overflow_run h matrix C k Hview Hk) as [h' ->].
Qed.

Lemma symmetricize_overflow_witness :
  (symmetricize (NdArray 0%nat false) (Some (- 2 ^ 63 - 1))
                [Mat (1, 1)%nat [[4]]]).1 = Raise OverflowError.
Proof.
  apply (symmetricize_overflow [Mat (1, 1)%nat [[4]]] (NdArray 0%nat false)
           (Mat (1, 1)%nat [[4]]) (- 2 ^ 63 - 1)).
  - reflexivity.
  - reflexivity.
Defined.
